(** * Suggest: a typeahead widget and its event loop

    A shallow embedding of [Suggest.js] (class [Suggest] and the [search]
    factory) together with the part of the browser it talks to: the input
    elements of the document, the table of armed window timers, the
    promises of searches that are in flight, and the calls made to the
    consumer's callbacks.

    JavaScript objects have identity and are mutated in place, so the
    embedding keeps a store of [Suggest] objects and a store of input
    elements; every method is a function on the whole [World]. *)

From Stdlib Require Import ZArith Bool.
From stdpp Require Import gmap strings list.

Local Open Scope Z_scope.

(** ** Values and handles *)

(** The items a search returns are opaque to the widget. Three shapes are
    told apart because the code itself does: [undefined] (what reading
    [suggestItem] off an element that has none gives), strings (the
    default [labelFn] returns the item itself) and every other object. *)
Inductive JsVal :=
| JUndefined
| JStr (s : string)
| JObj (ref : nat).

#[global] Instance JsVal_eq_dec : EqDecision JsVal.
Proof. solve_decision. Defined.

(** Handles: object identity is a number. *)
Abbreviation NodeId := nat (only parsing).    (* an input element of the page *)
Abbreviation ObjId := nat (only parsing).     (* a [Suggest] object *)
Abbreviation ElId := nat (only parsing).      (* an element built while rendering *)
Abbreviation TimerId := nat (only parsing).   (* what [setTimeout] returns *)
Abbreviation PromiseId := nat (only parsing). (* one call of [searchFn] *)

(** A callback option is either left [undefined] or holds a function. *)
Inductive Callback := Undefined | Function.

#[global] Instance Callback_eq_dec : EqDecision Callback.
Proof. solve_decision. Defined.

(** ** Settings *)

(** [SuggestSettings] after [Object.assign]. [searchFn], [selectFn],
    [clearFn] and [enterFn] are the consumer's code: the widget only calls
    them, and a call is recorded in the world's trace. [labelFn] and
    [markFn] compute strings and are taken as pure functions. The three
    HTML templates are the default ones (each yields exactly one
    element). *)
Record SuggestSettings := {
  placeholder : string;
  minLength : Z;
  debounce : Z;
  searchFn : Callback;
  labelFn : JsVal → string;
  markFn : string → string → JsVal → string;
  enterFn : Callback
}.

(** The [options] argument of the constructor: every key may be absent. *)
Record Options := {
  opt_placeholder : option string;
  opt_minLength : option Z;
  opt_debounce : option Z;
  opt_searchFn : option Callback;
  opt_labelFn : option (JsVal → string);
  opt_markFn : option (string → string → JsVal → string);
  opt_enterFn : option Callback
}.

(** [item => item], followed by the conversion to a string that storing the
    label in [value] or [title] performs. *)
Definition default_labelFn (item : JsVal) : string :=
  match item with
  | JUndefined => "undefined"
  | JStr s => s
  | JObj _ => "[object Object]"
  end.

Definition defaultSettings : SuggestSettings := {|
  placeholder := EmptyString;
  minLength := 1;
  debounce := 250;
  searchFn := Undefined;
  labelFn := default_labelFn;
  markFn := λ _ label _, label;
  enterFn := Undefined
|}.

(** [Object.assign({}, Suggest.#defaultSettings, options)]. *)
Definition assign (d : SuggestSettings) (o : Options) : SuggestSettings := {|
  placeholder := default (placeholder d) (opt_placeholder o);
  minLength := default (minLength d) (opt_minLength o);
  debounce := default (debounce d) (opt_debounce o);
  searchFn := default (searchFn d) (opt_searchFn o);
  labelFn := default (labelFn d) (opt_labelFn o);
  markFn := default (markFn d) (opt_markFn o);
  enterFn := default (enterFn d) (opt_enterFn o)
|}.

(** ** The DOM the widget touches *)

(** An input element: its current [value], the three attributes the
    constructor overwrites ([None] when [getAttribute] gives [null]), and
    which [Suggest]'s wrapper [div] is its parent at the moment, if any. *)
Record InputEl := {
  value : string;
  attr_placeholder : option string;
  attr_style : option string;
  attr_autocomplete : option string;
  wrapper : option ObjId
}.

(** What a child of the list element shows. *)
Inductive ElKind :=
| ItemButton (innerHTML : string) (title : string)
| ErrorDiv (message : string).

(** A child of the list element. [suggestItem] is [JUndefined] on the
    error element, which never gets the property. *)
Record Elem := {
  el_id : ElId;
  el_kind : ElKind;
  suggestItem : JsVal;
  hover : bool;
  active : bool
}.

(** Modelled from the spec: [Spinner.js] is imported by [Suggest.js] but is
    not among the sources. The spec calls it the searching indicator, a
    separate loading-indicator widget that is shown, hidden and destroyed;
    it is kept as two flags. *)
Record Spinner := {
  spinner_visible : bool;
  spinner_destroyed : bool
}.

(** ** A [Suggest] object: its private fields *)

(** [built] tells whether the constructor ran to its end, that is whether
    [#wrapperEl], [#listEl] and [#spinner] hold anything. The list element
    is owned by the object and is kept here: its children and whether it
    carries the class [show]. *)
Record Suggest := {
  settings : SuggestSettings;
  inputEl : option NodeId;
  built : bool;
  children : list Elem;
  listEl_show : bool;
  spinner : Spinner;
  originalAttributes : option string * option string * option string;
  timeoutId : option TimerId
}.

(** ** The world *)

(** An armed timer of [#debounceRefresh]: the object whose [refresh] it
    will call and the time at which it is due. *)
Record Timer := {
  timer_id : TimerId;
  timer_owner : ObjId;
  timer_due : Z
}.

(** A search in flight: the promise, the object that awaits it and the
    query it captured before the call. *)
Record Pending := {
  pend_id : PromiseId;
  pend_owner : ObjId;
  pend_query : string
}.

(** What the consumer and the console see. *)
Inductive Effect :=
| CallSearch (o : ObjId) (query : string) (p : PromiseId)
| CallSelect (o : ObjId) (item : JsVal) (el : ElId)
| CallClear (o : ObjId)
| CallEnter (o : ObjId) (item : JsVal) (el : option ElId)
| ConsoleError (msg : string)
| PreventDefault
| StopPropagation.

#[global] Instance Effect_eq_dec : EqDecision Effect.
Proof. solve_decision. Defined.

Record World := {
  nodes : gmap NodeId InputEl;          (* the input elements of the page *)
  selectors : gmap string NodeId;       (* [document.querySelector] *)
  objs : gmap ObjId Suggest;            (* every [Suggest] ever constructed *)
  initializedEls : gmap NodeId ObjId;   (* [Suggest.#initializedEls] *)
  documentListener : bool;              (* is [#documentOnClick] installed? *)
  timers : list Timer;                  (* armed window timers *)
  clock : Z;                            (* milliseconds *)
  inflight : list Pending;              (* searches not settled yet *)
  next_id : nat;                        (* source of fresh handles *)
  trace : list Effect                   (* oldest first *)
}.

(** ** Field updates *)

Definition set_value (v : string) (e : InputEl) : InputEl :=
  {| value := v; attr_placeholder := attr_placeholder e;
     attr_style := attr_style e; attr_autocomplete := attr_autocomplete e;
     wrapper := wrapper e |}.

Definition set_wrapper (p : option ObjId) (e : InputEl) : InputEl :=
  {| value := value e; attr_placeholder := attr_placeholder e;
     attr_style := attr_style e; attr_autocomplete := attr_autocomplete e;
     wrapper := p |}.

Definition set_attrs (a : option string * option string * option string)
    (e : InputEl) : InputEl :=
  {| value := value e; attr_placeholder := a.1.1; attr_style := a.1.2;
     attr_autocomplete := a.2; wrapper := wrapper e |}.

Definition set_hover (b : bool) (e : Elem) : Elem :=
  {| el_id := el_id e; el_kind := el_kind e; suggestItem := suggestItem e;
     hover := b; active := active e |}.

Definition set_active (b : bool) (e : Elem) : Elem :=
  {| el_id := el_id e; el_kind := el_kind e; suggestItem := suggestItem e;
     hover := hover e; active := b |}.

Definition set_children (l : list Elem) (s : Suggest) : Suggest :=
  {| settings := settings s; inputEl := inputEl s; built := built s;
     children := l; listEl_show := listEl_show s; spinner := spinner s;
     originalAttributes := originalAttributes s; timeoutId := timeoutId s |}.

Definition set_listEl_show (b : bool) (s : Suggest) : Suggest :=
  {| settings := settings s; inputEl := inputEl s; built := built s;
     children := children s; listEl_show := b; spinner := spinner s;
     originalAttributes := originalAttributes s; timeoutId := timeoutId s |}.

Definition set_spinner (sp : Spinner) (s : Suggest) : Suggest :=
  {| settings := settings s; inputEl := inputEl s; built := built s;
     children := children s; listEl_show := listEl_show s; spinner := sp;
     originalAttributes := originalAttributes s; timeoutId := timeoutId s |}.

Definition set_timeoutId (t : option TimerId) (s : Suggest) : Suggest :=
  {| settings := settings s; inputEl := inputEl s; built := built s;
     children := children s; listEl_show := listEl_show s;
     spinner := spinner s; originalAttributes := originalAttributes s;
     timeoutId := t |}.

Definition set_nodes (x : gmap NodeId InputEl) (w : World) : World :=
  {| nodes := x; selectors := selectors w; objs := objs w;
     initializedEls := initializedEls w;
     documentListener := documentListener w; timers := timers w;
     clock := clock w; inflight := inflight w; next_id := next_id w;
     trace := trace w |}.

Definition set_objs (x : gmap ObjId Suggest) (w : World) : World :=
  {| nodes := nodes w; selectors := selectors w; objs := x;
     initializedEls := initializedEls w;
     documentListener := documentListener w; timers := timers w;
     clock := clock w; inflight := inflight w; next_id := next_id w;
     trace := trace w |}.

Definition set_initializedEls (x : gmap NodeId ObjId) (w : World) : World :=
  {| nodes := nodes w; selectors := selectors w; objs := objs w;
     initializedEls := x; documentListener := documentListener w;
     timers := timers w; clock := clock w; inflight := inflight w;
     next_id := next_id w; trace := trace w |}.

Definition set_documentListener (x : bool) (w : World) : World :=
  {| nodes := nodes w; selectors := selectors w; objs := objs w;
     initializedEls := initializedEls w; documentListener := x;
     timers := timers w; clock := clock w; inflight := inflight w;
     next_id := next_id w; trace := trace w |}.

Definition set_timers (x : list Timer) (w : World) : World :=
  {| nodes := nodes w; selectors := selectors w; objs := objs w;
     initializedEls := initializedEls w;
     documentListener := documentListener w; timers := x;
     clock := clock w; inflight := inflight w; next_id := next_id w;
     trace := trace w |}.

Definition set_clock (x : Z) (w : World) : World :=
  {| nodes := nodes w; selectors := selectors w; objs := objs w;
     initializedEls := initializedEls w;
     documentListener := documentListener w; timers := timers w;
     clock := x; inflight := inflight w; next_id := next_id w;
     trace := trace w |}.

Definition set_inflight (x : list Pending) (w : World) : World :=
  {| nodes := nodes w; selectors := selectors w; objs := objs w;
     initializedEls := initializedEls w;
     documentListener := documentListener w; timers := timers w;
     clock := clock w; inflight := x; next_id := next_id w;
     trace := trace w |}.

Definition set_next_id (x : nat) (w : World) : World :=
  {| nodes := nodes w; selectors := selectors w; objs := objs w;
     initializedEls := initializedEls w;
     documentListener := documentListener w; timers := timers w;
     clock := clock w; inflight := inflight w; next_id := x;
     trace := trace w |}.

Definition set_trace (x : list Effect) (w : World) : World :=
  {| nodes := nodes w; selectors := selectors w; objs := objs w;
     initializedEls := initializedEls w;
     documentListener := documentListener w; timers := timers w;
     clock := clock w; inflight := inflight w; next_id := next_id w;
     trace := x |}.

(** Mutating one object or one input element in place. *)
Definition upd_obj (o : ObjId) (f : Suggest → Suggest) (w : World) : World :=
  set_objs (alter f o (objs w)) w.

Definition upd_node (n : NodeId) (f : InputEl → InputEl) (w : World) : World :=
  set_nodes (alter f n (nodes w)) w.

Definition emit (e : Effect) (w : World) : World :=
  set_trace (trace w ++ [e]) w.

(** Handles start at 1: a timer id is never falsy. *)
Definition fresh (w : World) : nat := S (next_id w).

Definition bump (k : nat) (w : World) : World :=
  set_next_id (k + next_id w)%nat w.

(** The object [o] when its constructor ran to the end. A method called on
    an object whose constructor returned early reads [undefined] fields and
    throws a [TypeError]; methods return [None] for a throw. *)
Definition get_built (o : ObjId) (w : World) : option Suggest :=
  s ← objs w !! o; if built s then Some s else None.

(** ** Methods of [Suggest] *)

Definition hide_list (s : Suggest) : Suggest := set_listEl_show false s.

(** [show()] returns at once when the list element has no child. *)
Definition show_list (s : Suggest) : Suggest :=
  match children s with
  | [] => s
  | _ :: _ => set_listEl_show true s
  end.

Definition spinner_show (s : Suggest) : Suggest :=
  set_spinner {| spinner_visible := true;
                 spinner_destroyed := spinner_destroyed (spinner s) |} s.

Definition spinner_hide (s : Suggest) : Suggest :=
  set_spinner {| spinner_visible := false;
                 spinner_destroyed := spinner_destroyed (spinner s) |} s.

Definition spinner_destroy (s : Suggest) : Suggest :=
  set_spinner {| spinner_visible := spinner_visible (spinner s);
                 spinner_destroyed := true |} s.

Definition show (o : ObjId) (w : World) : option World :=
  _ ← get_built o w; Some (upd_obj o show_list w).

Definition hide (o : ObjId) (w : World) : option World :=
  _ ← get_built o w; Some (upd_obj o hide_list w).

(** [clear()]: hide, empty the field, empty the list, call [clearFn]. *)
Definition clear (o : ObjId) (w : World) : option World :=
  s ← get_built o w;
  n ← inputEl s;
  Some (emit (CallClear o)
         (upd_obj o (set_children [])
           (upd_node n (set_value EmptyString)
             (upd_obj o hide_list w)))).

(** One iteration of the loop of [updateList]: the element for [item]. *)
Definition newElement (st : SuggestSettings) (query : string) (id : ElId)
    (item : JsVal) : Elem :=
  let label := labelFn st item in
  {| el_id := id; el_kind := ItemButton (markFn st query label item) label;
     suggestItem := item; hover := false; active := false |}.

(** [updateList(suggest, list)]: a fragment with one element per item, in
    the order of [list]; it replaces the children and the list is shown,
    or, when the fragment is empty, the list is hidden and emptied. *)
Definition updateList (o : ObjId) (list : list JsVal) (w : World)
    : option World :=
  s ← get_built o w;
  n ← inputEl s;
  nd ← nodes w !! n;
  let fragment :=
    imap (λ k, newElement (settings s) (value nd) (fresh w + k)%nat) list in
  let w' := bump (length list) w in
  Some match fragment with
       | [] => upd_obj o (λ s, set_children [] (hide_list s)) w'
       | _ :: _ => upd_obj o (λ s, show_list (set_children fragment s)) w'
       end.

(** The element made from the error template, with the message in it. *)
Definition errorEl (id : ElId) (message : string) : Elem :=
  {| el_id := id; el_kind := ErrorDiv message; suggestItem := JUndefined;
     hover := false; active := false |}.

(** [showError(suggest, error)]: hide, empty the list, put the error
    element with the message in it, show, log. *)
Definition showError (o : ObjId) (message : string) (w : World)
    : option World :=
  _ ← get_built o w;
  Some (emit (ConsoleError message)
         (upd_obj o (λ s, show_list
                            (set_children [errorEl (fresh w) message]
                               (hide_list s)))
           (bump 1 w))).

Definition add_inflight (p : Pending) (w : World) : World :=
  set_inflight (inflight w ++ [p]) w.

(** [refresh()] up to its [await]. The call of [searchFn] is recorded and
    its promise joins the searches in flight; the rest of the function
    runs when the promise settles ([refresh_resume]). *)
Definition refresh (o : ObjId) (w : World) : option World :=
  s ← objs w !! o;
  n ← inputEl s;
  nd ← nodes w !! n;
  if String.eqb (value nd) EmptyString then
    w' ← clear o w; Some (upd_obj o spinner_hide w')
  else if Z.of_nat (String.length (value nd)) <? minLength (settings s) then
    Some w
  else
    _ ← get_built o w;
    let query := value nd in
    let p := fresh w in
    Some (add_inflight {| pend_id := p; pend_owner := o; pend_query := query |}
           (emit (CallSearch o query p)
             (upd_obj o spinner_show (bump 1 w)))).

(** How a search ends: the promise of [searchFn] is fulfilled with a list
    or rejected with an [Error] carrying a message. *)
Inductive SearchOutcome :=
| Resolved (list : list JsVal)
| Rejected (message : string).

Definition find_pending (p : PromiseId) (l : list Pending) : option Pending :=
  snd <$> list_find (λ x, pend_id x = p) l.

Definition drop_pending (p : PromiseId) (l : list Pending) : list Pending :=
  filter (λ x, pend_id x ≠ p) l.

(** [refresh()] after its [await]: the staleness guard and [updateList] in
    the [try] block, [showError] in the [catch] block. *)
Definition refresh_resume (p : PromiseId) (r : SearchOutcome) (w : World)
    : option World :=
  pd ← find_pending p (inflight w);
  let w1 := set_inflight (drop_pending p (inflight w)) w in
  let o := pend_owner pd in
  s ← objs w1 !! o;
  n ← inputEl s;
  nd ← nodes w1 !! n;
  match r with
  | Resolved list =>
      if negb (String.eqb (value nd) (pend_query pd)) then Some w1
      else w2 ← updateList o list w1; Some (upd_obj o spinner_hide w2)
  | Rejected message =>
      w2 ← showError o message w1; Some (upd_obj o spinner_hide w2)
  end.

(** *** Debounce *)

Definition clearTimeout (id : TimerId) (w : World) : World :=
  set_timers (filter (λ t, timer_id t ≠ id) (timers w)) w.

(** [setTimeout(callback, delay)] for the callback of [#debounceRefresh] of
    object [o]; the id it returns is [fresh w]. A negative delay counts as
    zero. *)
Definition setTimeout (o : ObjId) (delay : Z) (w : World) : World :=
  bump 1
    (set_timers (timers w ++ [{| timer_id := fresh w; timer_owner := o;
                                 timer_due := clock w + Z.max 0 delay |}]) w).

(** [if (this.#timeoutId)]: [undefined] and [0] are falsy. *)
Definition truthy (t : option TimerId) : bool :=
  match t with
  | Some (S _) => true
  | _ => false
  end.

Definition debounceRefresh (o : ObjId) (w : World) : option World :=
  s ← objs w !! o;
  let w1 := if truthy (timeoutId s)
            then clearTimeout (default 0%nat (timeoutId s)) w else w in
  Some (upd_obj o (set_timeoutId (Some (fresh w1)))
         (setTimeout o (debounce (settings s)) w1)).

(** The arrow function given to [setTimeout]. An exception thrown by
    [refresh] leaves what was done before it. *)
Definition timer_callback (o : ObjId) (w : World) : World :=
  let w1 := upd_obj o (set_timeoutId None) w in
  default w1 (refresh o w1).

(** The browser runs a due timer: it leaves the table, then its callback
    runs. *)
Definition fire (t : Timer) (w : World) : World :=
  timer_callback (timer_owner t) (clearTimeout (timer_id t) w).

(** *** Keyboard navigation and selection *)

(** Children of the list element are addressed by their position. *)
Inductive SiblingProp := nextElementSibling | previousElementSibling.
Inductive ChildProp := firstElementChild | lastElementChild.

(** [el[currentProp]] for the child at position [i] of [n] children:
    [None] is [null]. *)
Definition sibling (p : SiblingProp) (i n : nat) : option nat :=
  match p with
  | nextElementSibling => if decide (S i < n)%nat then Some (S i) else None
  | previousElementSibling =>
      match i with
      | O => None
      | S j => Some j
      end
  end.

(** [listEl[listProp]] for a list of [n] children. *)
Definition child (p : ChildProp) (n : nat) : option nat :=
  match n with
  | O => None
  | S m => Some match p with
                | firstElementChild => O
                | lastElementChild => m
                end
  end.

(** [listEl.querySelector('.hover')] and [('.active')]: the first child, in
    document order, that carries the class. *)
Definition querySelector (cls : Elem → bool) (l : list Elem) : option nat :=
  fst <$> list_find (λ e, cls e = true) l.

(** [focusedEl || activeEl]. *)
Definition currentEl (s : Suggest) : option nat :=
  match querySelector hover (children s) with
  | Some i => Some i
  | None => querySelector active (children s)
  end.

(** [#moveHover]. Scrolling the new element into view changes nothing that
    is kept here. With no child at all [nextEl] is [null] and the method
    throws. *)
Definition moveHover (o : ObjId) (currentProp : SiblingProp)
    (listProp : ChildProp) (w : World) : option World :=
  s ← get_built o w;
  let n := length (children s) in
  let cur := currentEl s in
  let nextEl := match cur with
                | Some i => match sibling currentProp i n with
                            | Some j => Some j
                            | None => child listProp n
                            end
                | None => child listProp n
                end in
  j ← nextEl;
  let unhover l := match cur with
                   | Some i => alter (set_hover false) i l
                   | None => l
                   end in
  Some (upd_obj o
          (λ s, set_children
                  (alter (set_hover true) j (unhover (children s))) s)
          (emit PreventDefault (emit StopPropagation w))).

(** What [#select] may be handed: [null], the list element itself, or the
    child at some position. *)
Inductive Target := TNull | TListEl | TChild (i : nat).

(** [#select(itemEl)]. *)
Definition select (o : ObjId) (itemEl : Target) (w : World) : option World :=
  match itemEl with
  | TNull | TListEl => Some w
  | TChild i =>
      s ← get_built o w;
      n ← inputEl s;
      e ← children s !! i;
      Some (emit (CallSelect o (suggestItem e) (el_id e))
             (upd_obj o
                (λ s, hide_list
                        (set_children
                           (alter (set_active true) i
                              ((λ c, set_hover false (set_active false c))
                                 <$> children s)) s))
                (upd_node n
                   (set_value (labelFn (settings s) (suggestItem e))) w)))
  end.

Definition is_function (c : Callback) : bool :=
  match c with
  | Function => true
  | Undefined => false
  end.

(** [#findSelectedEl]. *)
Definition findSelectedEl (o : ObjId) (key : string) (w : World)
    : option World :=
  s ← get_built o w;
  let w1 := emit StopPropagation (emit PreventDefault w) in
  let cur := currentEl s in
  if String.eqb key "Enter" && is_function (enterFn (settings s)) then
    let curEl := cur ≫= λ i, children s !! i in
    Some (emit (CallEnter o (from_option suggestItem JUndefined curEl)
                  (el_id <$> curEl)) w1)
  else
    let target := match cur with
                  | Some i => TChild i
                  | None =>
                      match child firstElementChild (length (children s)) with
                      | Some j => TChild j
                      | None => TNull
                      end
                  end in
    select o target w1.

(** [#handleKeyEvent]. *)
Definition handleKeyEvent (o : ObjId) (key : string) (w : World)
    : option World :=
  s ← get_built o w;
  if negb (listEl_show s) then
    if String.eqb key "ArrowDown" || String.eqb key "ArrowUp"
    then show o w else Some w
  else if String.eqb key "ArrowDown" then
    moveHover o nextElementSibling firstElementChild w
  else if String.eqb key "ArrowUp" then
    moveHover o previousElementSibling lastElementChild w
  else if String.eqb key "Enter" || String.eqb key "Tab" then
    findSelectedEl o key w
  else Some w.

(** *** Construction and destruction *)

(** The first argument of the constructor. *)
Inductive ElArg :=
| ASelector (sel : string)
| AElement (n : NodeId)
| ANull.

(** [typeof el === 'string' ? document.querySelector(el) : el]. *)
Definition resolve_el (el : ElArg) (w : World) : option NodeId :=
  match el with
  | ASelector sel => selectors w !! sel
  | AElement n => Some n
  | ANull => None
  end.

(** The local function [revertAttributes] of [destroy]: a falsy saved value
    ([null] or the empty string) removes the attribute. *)
Definition revertAttributes (saved : option string) : option string :=
  match saved with
  | Some s => if String.eqb s EmptyString then None else Some s
  | None => None
  end.

(** [destroy()]. The parent of the input is removed from the page after
    the input was moved out of it; when that parent is a wrapper, the
    wrapper is gone. The pending timer, if any, is not touched. *)
Definition destroy (o : ObjId) (w : World) : option World :=
  s ← get_built o w;
  n ← inputEl s;
  _ ← nodes w !! n;
  let saved := originalAttributes s in
  let w1 :=
    set_initializedEls (delete n (initializedEls w))
      (upd_node n (set_attrs (revertAttributes saved.1.1,
                              revertAttributes saved.1.2,
                              revertAttributes saved.2))
        (upd_node n (set_wrapper None)
          (upd_obj o spinner_destroy w))) in
  Some (if decide (size (initializedEls w1) = 0%nat)
        then set_documentListener false w1 else w1).

Definition alloc (o : ObjId) (s : Suggest) (w : World) : World :=
  set_objs (<[o := s]> (objs w)) w.

(** The value of the [style] attribute once [style.zIndex = '0'] ran. *)
Definition style_zIndex (old : option string) : string :=
  default EmptyString old +:+ "z-index: 0;".

Definition msg_null : string :=
  "Suggest Error: Suggest input element is null. First constructor parameter must be a query selector or DOM element to attach the suggest to.".

Definition msg_searchFn : string :=
  "Suggest Error: You must define a search function.".

(** An object whose constructor returned early: nothing but [#inputEl]
    (and, past the first guard, [#settings]) is assigned. *)
Definition unbuilt (st : SuggestSettings) (n : option NodeId) : Suggest :=
  {| settings := st; inputEl := n; built := false; children := [];
     listEl_show := false;
     spinner := {| spinner_visible := false; spinner_destroyed := false |};
     originalAttributes := (None, None, None); timeoutId := None |}.

(** [new Suggest(el, options)]; the new object is [fresh w]. *)
Definition new_Suggest (el : ElArg) (options : Options) (w : World)
    : option World :=
  let this := fresh w in
  let w0 := bump 1 w in
  match resolve_el el w with
  | None =>
      Some (emit (ConsoleError msg_null)
             (alloc this (unbuilt defaultSettings None) w0))
  | Some n =>
      w1 ← match initializedEls w0 !! n with
           | Some prior => destroy prior w0
           | None => Some w0
           end;
      let st := assign defaultSettings options in
      if negb (is_function (searchFn st)) then
        Some (emit (ConsoleError msg_searchFn)
               (alloc this (unbuilt st (Some n)) w1))
      else
        nd ← nodes w1 !! n;
        let obj :=
          {| settings := st; inputEl := Some n; built := true;
             children := []; listEl_show := false;
             spinner := {| spinner_visible := false;
                           spinner_destroyed := false |};
             originalAttributes :=
               (attr_placeholder nd, attr_style nd, attr_autocomplete nd);
             timeoutId := None |} in
        let w2 :=
          upd_node n (set_attrs (Some (placeholder st),
                                 Some (style_zIndex (attr_style nd)),
                                 Some "off"))
            (upd_node n (set_wrapper (Some this)) (alloc this obj w1)) in
        let w3 := if decide (size (initializedEls w2) = 0%nat)
                  then set_documentListener true w2 else w2 in
        Some (set_initializedEls (<[n := this]> (initializedEls w3)) w3)
  end.

(** *** The shared document listener *)

(** Where a click that reaches the document landed. A click inside a list
    element never does: the list's own listener stops it. *)
Inductive ClickTarget := Elsewhere | OnInput (n : NodeId).

Definition contains_target (s : Suggest) (t : ClickTarget) : bool :=
  match t, inputEl s with
  | OnInput n, Some m => bool_decide (n = m)
  | _, _ => false
  end.

(** [Suggest.#documentOnClick]. *)
Definition documentOnClick (t : ClickTarget) (w : World) : World :=
  foldr (λ o w,
           match objs w !! o with
           | Some s =>
               if contains_target s t then w
               else upd_obj o
                      (λ s, hide_list
                              (set_children (set_hover false <$> children s) s))
                      w
           | None => w
           end)
        w (snd <$> map_to_list (initializedEls w)).

(** ** The event loop *)

(** What can happen to the page: the consumer's script calls the
    constructor or a public method, the user types, presses a key or
    clicks, a search settles. *)
Inductive Event :=
| ENew (el : ElArg) (options : Options)
| EDestroy (o : ObjId)
| EShow (o : ObjId)
| EHide (o : ObjId)
| EClear (o : ObjId)
| ERefresh (o : ObjId)
| EInput (n : NodeId) (v : string)
| EKeyDown (n : NodeId) (key : string)
| EClickInput (n : NodeId)
| EClickList (o : ObjId) (t : Target)
| EClickElsewhere
| ESettle (p : PromiseId) (r : SearchOutcome).

(** The listeners of [#wrapInputEl] sit on the wrapper: an event of the
    input reaches the object whose wrapper is the input's parent. The
    [focus] listener is never reached, since [focus] does not bubble from
    the input to the wrapper, and has no event here. *)
Definition listener_of (n : NodeId) (w : World) : option ObjId :=
  nd ← nodes w !! n; wrapper nd.

(** An exception that escapes a handler is reported by the browser and the
    page goes on. *)
Definition attempt (r : option World) (w : World) : World := default w r.

Definition on_wrapper (n : NodeId) (f : ObjId → World → option World)
    (w : World) : World :=
  match listener_of n w with
  | Some o => attempt (f o w) w
  | None => w
  end.

Definition on_document (t : ClickTarget) (w : World) : World :=
  if documentListener w then documentOnClick t w else w.

(** The [click] listener of the wrapper. *)
Definition wrapper_click (n : NodeId) (o : ObjId) (w : World) : option World :=
  nd ← nodes w !! n;
  if negb (String.eqb (value nd) EmptyString) then show o w else hide o w.

(** The [click] listener of the list element; the list is on the page only
    while its wrapper is. *)
Definition list_click (o : ObjId) (t : Target) (w : World) : option World :=
  s ← get_built o w;
  n ← inputEl s;
  if bool_decide (listener_of n w = Some o)
  then select o t (emit StopPropagation w) else None.

Definition step (e : Event) (w : World) : World :=
  match e with
  | ENew el options => attempt (new_Suggest el options w) w
  | EDestroy o => attempt (destroy o w) w
  | EShow o => attempt (show o w) w
  | EHide o => attempt (hide o w) w
  | EClear o => attempt (clear o w) w
  | ERefresh o => attempt (refresh o w) w
  | EInput n v =>
      on_wrapper n debounceRefresh (upd_node n (set_value v) w)
  | EKeyDown n key => on_wrapper n (λ o, handleKeyEvent o key) w
  | EClickInput n =>
      on_document (OnInput n) (on_wrapper n (wrapper_click n) w)
  | EClickList o t => attempt (list_click o t w) w
  | EClickElsewhere => on_document Elsewhere w
  | ESettle p r => attempt (refresh_resume p r w) w
  end.

(** *** Time *)

(** The armed timer that is due first; among equals, the one armed
    first. *)
Fixpoint earliest (l : list Timer) : option Timer :=
  match l with
  | [] => None
  | t :: l' =>
      match earliest l' with
      | Some t' => if timer_due t' <? timer_due t then Some t' else Some t
      | None => Some t
      end
  end.

Definition due_by (t : Z) (w : World) : list Timer :=
  filter (λ tm, timer_due tm ≤ t) (timers w).

(** Let time pass until [t]: the due timers run in the order they are due.
    A callback arms no timer, so as many rounds as there are timers are
    enough. *)
Fixpoint advance_fuel (fuel : nat) (t : Z) (w : World) : World :=
  match fuel with
  | O => w
  | S k =>
      match earliest (due_by t w) with
      | Some tm =>
          advance_fuel k t (fire tm (set_clock (Z.max (clock w) (timer_due tm)) w))
      | None => w
      end
  end.

Definition advance (t : Z) (w : World) : World :=
  let w' := advance_fuel (length (timers w)) t w in
  set_clock (Z.max (clock w') t) w'.

(** A schedule: each event with the time at which it happens. *)
Fixpoint run (es : list (Z * Event)) (w : World) : World :=
  match es with
  | [] => w
  | (t, e) :: es' => run es' (step e (advance t w))
  end.

(** A page before any script ran. *)
Definition page (inputs : gmap NodeId InputEl) (sels : gmap string NodeId)
    : World :=
  {| nodes := inputs; selectors := sels; objs := ∅; initializedEls := ∅;
     documentListener := false; timers := []; clock := 0; inflight := [];
     next_id := 0; trace := [] |}.

(** ** The [search.ajax] factory *)

(** What [result.json()] gives: an array, some other value, or a rejection
    for a body that is not JSON. *)
Inductive JsonBody :=
| JsonArray (list : list JsVal)
| JsonOther
| JsonInvalid (message : string).

(** The fields of a [Response] that the function reads. *)
Record Response := {
  redirected : bool;
  url : string;
  ok : bool;
  json : JsonBody
}.

(** [fetch] rejects (network failure) or resolves with a response. *)
Inductive FetchResult :=
| FetchRejected (message : string)
| Fetched (result : Response).

(** [String.prototype.endsWith]. *)
Definition endsWith (s suffix : string) : bool :=
  let n := String.length s in
  let k := String.length suffix in
  (k <=? n)%nat && String.eqb (String.substring (n - k) k s) suffix.

Definition msg_logged_out : string := "You have been logged out.".
Definition msg_server : string := "There was a problem with the server.".

(** The async function that [search.ajax(buildUrlFn, loginUrlEndsWith)]
    returns, as a function of what [fetch] came back with. *)
Definition ajax (loginUrlEndsWith : string) (r : FetchResult) : SearchOutcome :=
  match r with
  | FetchRejected message => Rejected message
  | Fetched result =>
      if redirected result && endsWith (url result) loginUrlEndsWith then
        Rejected msg_logged_out
      else if redirected result || negb (ok result) then
        Rejected msg_server
      else
        match json result with
        | JsonArray list => Resolved list
        | JsonOther => Rejected msg_server
        | JsonInvalid message => Rejected message
        end
  end.

(** The default of the second parameter. *)
Definition default_loginUrlEndsWith : string := "/login".

(** ** Marks on the children of the list *)

(** [i] is the first position whose child carries the class. *)
Definition first_with (cls : Elem → bool) (l : list Elem) (i : nat) : Prop :=
  ∃ e, l !! i = Some e ∧ cls e = true
       ∧ ∀ j c, l !! j = Some c → (j < i)%nat → cls c = false.

Definition none_with (cls : Elem → bool) (l : list Elem) : Prop :=
  ∀ j c, l !! j = Some c → cls c = false.

(** The class sits on the child at [i] and on no other. *)
Definition only_at (cls : Elem → bool) (l : list Elem) (i : nat) : Prop :=
  ∀ j c, l !! j = Some c → (cls c = true ↔ j = i).

Definition at_most_one (cls : Elem → bool) (l : list Elem) : Prop :=
  ∀ j k c d, l !! j = Some c → l !! k = Some d →
             cls c = true → cls d = true → j = k.

(** The element the keyboard acts from: the highlighted child, else the
    active child, else none. *)
Inductive current_is (l : list Elem) : option nat → Prop :=
| current_hover i : first_with hover l i → current_is l (Some i)
| current_active i :
    none_with hover l → first_with active l i → current_is l (Some i)
| current_none : none_with hover l → none_with active l → current_is l None.

(** ** Sample pages *)

Definition plain_input (v : string) : InputEl :=
  {| value := v; attr_placeholder := None; attr_style := None;
     attr_autocomplete := None; wrapper := None |}.

(** One text input, node 7, reachable by the selector [#q]. *)
Definition sample_page : World :=
  page {[ 7%nat := plain_input EmptyString ]} {[ "#q" := 7%nat ]}.

(** Options that give a search function, a minimal length and maybe an
    [enterFn]; the rest is left to the defaults. *)
Definition sample_options (minLen : Z) (enter : Callback) : Options :=
  {| opt_placeholder := None; opt_minLength := Some minLen;
     opt_debounce := None; opt_searchFn := Some Function;
     opt_labelFn := None; opt_markFn := None; opt_enterFn := Some enter |}.

Definition no_options : Options :=
  {| opt_placeholder := None; opt_minLength := None; opt_debounce := None;
     opt_searchFn := None; opt_labelFn := None; opt_markFn := None;
     opt_enterFn := None |}.

(** A widget (object 1) on node 7 with [minLength] 3; the user typed
    [abc], the search (promise 3) came back with two items, and the user
    then deleted the last letter. The debounce timer for [ab] is armed. *)
Definition short_after_long : World :=
  run [ (0, ENew (ASelector "#q") (sample_options 3 Undefined));
        (10, EInput 7%nat "abc");
        (300, ESettle 3%nat (Resolved [JStr "abcd"; JStr "abce"]));
        (900, EInput 7%nat "ab") ]
      sample_page.

(** As [short_after_long], but the user emptied the field. *)
Definition emptied_field : World :=
  run [ (0, ENew (ASelector "#q") (sample_options 3 Undefined));
        (10, EInput 7%nat "abc");
        (300, ESettle 3%nat (Resolved [JStr "abcd"; JStr "abce"]));
        (900, EInput 7%nat EmptyString) ]
      sample_page.

(** A widget (object 1) on node 7 whose search for [a] (promise 3) came
    back with three items: the list is open, nothing is highlighted. *)
Definition three_items_with (enter : Callback) : World :=
  run [ (0, ENew (ASelector "#q") (sample_options 1 enter));
        (10, EInput 7%nat "a");
        (300, ESettle 3%nat (Resolved [JStr "a"; JStr "b"; JStr "c"])) ]
      sample_page.

Definition three_items : World := three_items_with Undefined.




(** The highlighted position, if any. *)
Definition highlight (s : Suggest) : option nat :=
  querySelector hover (children s).

(** [k] presses of the same key on the input of object [o]. *)
Fixpoint press (k : nat) (key : string) (o : ObjId) (w : World)
    : option World :=
  match k with
  | O => Some w
  | S k' => w' ← press k' key o w; handleKeyEvent o key w'
  end.

(** A widget on node 7 whose search for [ab] (promise 3) is in flight
    while the field already reads [abc]. *)
Definition typed_ahead : World :=
  run [ (0, ENew (ASelector "#q") (sample_options 1 Undefined));
        (10, EInput 7%nat "ab");
        (300, EInput 7%nat "abc") ]
      sample_page.

(** A response that was redirected to the login page. *)
Definition login_redirect : Response :=
  {| redirected := true; url := "https://example.org/app/login";
     ok := true; json := JsonInvalid "Unexpected token" |}.

(** From [typed_ahead]: the user went back to [ab] and stopped typing.
    Two searches for [ab] are in flight, promise 3 (the older) and
    promise 6. *)
Definition same_query_twice : World :=
  advance 700 (run [ (400, EInput 7%nat "ab") ] typed_ahead).

(** A widget on node 7, destroyed 90 ms after the user typed [ab]. *)
Definition destroyed_while_pending : World :=
  run [ (0, ENew (ASelector "#q") (sample_options 1 Undefined));
        (10, EInput 7%nat "ab");
        (100, EDestroy 1%nat) ]
      sample_page.

(** ** The sentences of the spec that the code does not bear out *)

(** The sentence of the spec about short queries, as it is written: a
    refresh with a non-empty query below [minLength] leaves the list
    without children. *)
Definition short_query_clears_list : Prop :=
  ∀ (w w' : World) (o : ObjId) (s : Suggest) (n : NodeId) (nd : InputEl),
    objs w !! o = Some s → inputEl s = Some n → nodes w !! n = Some nd →
    value nd ≠ EmptyString →
    Z.of_nat (String.length (value nd)) < minLength (settings s) →
    refresh o w = Some w' →
    ∃ s', objs w' !! o = Some s' ∧ children s' = [].


(** The second sentence of the claim, as it is written: search A was
    dispatched before search B by the same widget, B's result is rendered
    while the field holds B's query, A resolves afterwards; then A's
    resolution leaves the rendered children as B's result left them. *)
Definition older_result_never_alters : Prop :=
  ∀ (w w1 w2 : World) (a b : Pending) (s s1 s2 : Suggest) (n : NodeId)
    (nd : InputEl) (la lb : list JsVal),
    find_pending (pend_id a) (inflight w) = Some a →
    find_pending (pend_id b) (inflight w) = Some b →
    pend_owner a = pend_owner b → (pend_id a < pend_id b)%nat →
    objs w !! pend_owner b = Some s → inputEl s = Some n →
    nodes w !! n = Some nd → value nd = pend_query b →
    refresh_resume (pend_id b) (Resolved lb) w = Some w1 →
    refresh_resume (pend_id a) (Resolved la) w1 = Some w2 →
    objs w1 !! pend_owner b = Some s1 → objs w2 !! pend_owner b = Some s2 →
    children s2 = children s1.

(** ** Reachable worlds and what holds of them *)

(** The worlds a page can be in: it starts with no input wrapped, then
    events happen and time passes. *)
Inductive reachable : World → Prop :=
| reach_page inputs sels :
    (∀ n nd, inputs !! n = Some nd → wrapper nd = None) →
    reachable (page inputs sels)
| reach_step e w : reachable w → reachable (step e w)
| reach_advance t w : reachable w → reachable (advance t w).

(** The armed timers that will call [refresh] of object [o]. *)
Definition own_timers (o : ObjId) (w : World) : list Timer :=
  filter (λ t, timer_owner t = o) (timers w).

(** At most one child is highlighted, at most one is active, and an open
    list has a child. *)
Definition obj_ok (s : Suggest) : Prop :=
  at_most_one hover (children s)
  ∧ at_most_one active (children s)
  ∧ (listEl_show s = true → children s ≠ []).

Record wf (w : World) : Prop := {
  (* handles are handed out in increasing order *)
  wf_ids : ∀ o, is_Some (objs w !! o) → (o ≤ next_id w)%nat;
  wf_timer_ids : Forall (λ t, (1 ≤ timer_id t ≤ next_id w)%nat) (timers w);
  wf_timer_nodup : NoDup (timer_id <$> timers w);
  wf_timer_owner : Forall (λ t, is_Some (objs w !! timer_owner t)) (timers w);
  (* [#timeoutId] names the one armed timer of the object, if any *)
  wf_timeoutId : ∀ o s, objs w !! o = Some s →
    timer_id <$> own_timers o w = option_list (timeoutId s);
  (* the document listener is on exactly while the registry has an entry *)
  wf_listener : documentListener w = true ↔ initializedEls w ≠ ∅;
  (* the registry maps an input to a built object made for that input *)
  wf_registry : ∀ n o, initializedEls w !! n = Some o →
    ∃ s, objs w !! o = Some s ∧ built s = true ∧ inputEl s = Some n;
  (* the wrapper around an input is the wrapper of the registered object *)
  wf_wrapper : ∀ n, listener_of n w = initializedEls w !! n;
  wf_built : ∀ o s, objs w !! o = Some s → built s = true →
    ∃ n, inputEl s = Some n ∧ is_Some (nodes w !! n);
  wf_objs : ∀ o s, objs w !! o = Some s → obj_ok s
}.

(** What a function applied to an object in place must leave alone for
    [wf] to survive. *)
Definition keeps (f : Suggest → Suggest) (s : Suggest) : Prop :=
  built (f s) = built s ∧ inputEl (f s) = inputEl s
  ∧ timeoutId (f s) = timeoutId s ∧ (obj_ok s → obj_ok (f s)).


(** ** Bursts of keystrokes *)








(** A freshly built widget on node 7, with the default [minLength] of 1
    and the default debounce of 250 ms. *)
Definition fresh_widget : World :=
  run [ (0, ENew (ASelector "#q") (sample_options 1 Undefined)) ] sample_page.




(** ** More of [Suggest.js] *)

(** *** The [mouseenter] listener of an item *)


(** *** [mark.startsWith] *)

(** [String.prototype.indexOf] from position 0: where the first
    occurrence starts. *)
Fixpoint indexOf (s needle : string) : option nat :=
  if String.prefix needle s then Some O
  else match s with
       | EmptyString => None
       | String _ s' => S <$> indexOf s' needle
       end.

(** How [slice] reads an index: a negative one counts from the end, and
    the result is kept within the string. *)
Definition clamp (len : nat) (k : Z) : nat :=
  if k <? 0 then Z.to_nat (Z.max (Z.of_nat len + k) 0)
  else Nat.min (Z.to_nat k) len.

(** [String.prototype.slice(start, end)]; [None] for an [end] left out. *)
Definition slice (s : string) (start : Z) (end_ : option Z) : string :=
  let len := String.length s in
  let from := clamp len start in
  let to := match end_ with
            | Some e => clamp len e
            | None => len
            end in
  String.substring from (to - from) s.

(** The index at which [mark.startsWith] cuts the label: [indexOf] gives
    -1 when the query does not occur. [toLowerCase] is the built-in of the
    engine. *)
Definition startsWith_index (toLowerCase : string → string)
    (query label : string) : Z :=
  match indexOf (toLowerCase label) (toLowerCase query) with
  | Some i => Z.of_nat i
  | None => -1
  end + Z.of_nat (String.length query).

(** [mark.startsWith(query, label)]. *)
Definition startsWith (toLowerCase : string → string) (query label : string)
    : string :=
  let index := startsWith_index toLowerCase query label in
  "<mark>" +:+ slice label 0 (Some index) +:+ "</mark>"
  +:+ slice label index None.

(** [toLowerCase] on text made of ASCII characters. *)
Definition ascii_lower (c : Ascii.ascii) : Ascii.ascii :=
  let k := Ascii.nat_of_ascii c in
  if (65 <=? k)%nat && (k <=? 90)%nat then Ascii.ascii_of_nat (k + 32) else c.

Fixpoint ascii_toLowerCase (s : string) : string :=
  match s with
  | EmptyString => EmptyString
  | String c s' => String (ascii_lower c) (ascii_toLowerCase s')
  end.

(** *** Sample pages, continued *)

(** A page with two inputs, nodes 7 and 8, each with a widget (objects 1
    and 2); both searches came back and both lists are open, the first
    with its first item highlighted. *)
Definition two_inputs : World :=
  page {[ 7%nat := plain_input EmptyString; 8%nat := plain_input EmptyString ]}
       {[ "#q" := 7%nat; "#r" := 8%nat ]}.

Definition two_widgets : World :=
  run [ (0, ENew (ASelector "#q") (sample_options 1 Undefined));
        (0, ENew (ASelector "#r") (sample_options 1 Undefined));
        (10, EInput 7%nat "a");
        (20, EInput 8%nat "b");
        (300, ESettle 5%nat (Resolved [JStr "a1"; JStr "a2"]));
        (310, ESettle 6%nat (Resolved [JStr "b1"]));
        (400, EKeyDown 7%nat "ArrowDown") ]
      two_inputs.

(** An input that came with attributes of its own. *)
Definition styled_input : InputEl :=
  {| value := "x"; attr_placeholder := Some "City";
     attr_style := Some "color: red;"; attr_autocomplete := None;
     wrapper := None |}.

Definition styled_page : World :=
  page {[ 7%nat := styled_input ]} {[ "#q" := 7%nat ]}.

(** The search of [typed_ahead] failed: the list shows the error. *)
Definition error_shown : World :=
  run [ (500, ESettle 3%nat (Rejected msg_server)) ] typed_ahead.

(** What [destroy()] leaves of an input that looked like [nd] when the
    widget was constructed: no wrapper, and each of the three attributes
    back, unless it was the empty string, which [revertAttributes] takes
    for absent. *)
Definition reverted (nd : InputEl) : InputEl :=
  {| value := value nd;
     attr_placeholder := revertAttributes (attr_placeholder nd);
     attr_style := revertAttributes (attr_style nd);
     attr_autocomplete := revertAttributes (attr_autocomplete nd);
     wrapper := None |}.

(** No attribute is present and empty. *)
Definition no_empty_attribute (nd : InputEl) : Prop :=
  attr_placeholder nd ≠ Some EmptyString
  ∧ attr_style nd ≠ Some EmptyString
  ∧ attr_autocomplete nd ≠ Some EmptyString.

(** A widget on the input of [styled_page]. *)
Definition styled_widget : World :=
  run [ (0, ENew (ASelector "#q") (sample_options 1 Undefined)) ] styled_page.


(** *** A click that misses a widget *)

(** What [#documentOnClick] does to a widget when the click landed
    neither in its input nor in its list: no child stays highlighted and
    the list is hidden. *)
Definition dismiss (s : Suggest) : Suggest :=
  hide_list (set_children (set_hover false <$> children s) s).

(** *** What an event can add *)

(** A function applied to an object in place leaves its settings, its
    input and whether it was built. *)
Definition fixes (f : Suggest → Suggest) : Prop :=
  ∀ s, settings (f s) = settings s ∧ inputEl (f s) = inputEl s
       ∧ built (f s) = built s.

(** Every object of [w] is still there in [w'], with the settings, the
    input and the [built] flag it had. *)
Definition kept (w w' : World) : Prop :=
  ∀ o s, objs w !! o = Some s →
    ∃ s', objs w' !! o = Some s' ∧ settings s' = settings s
          ∧ inputEl s' = inputEl s ∧ built s' = built s.

(** A call of [searchFn] is in order when the object that made it was
    built and the query is not empty and not shorter than the object's
    [minLength]. *)
Definition search_ok (m : gmap ObjId Suggest) (e : Effect) : Prop :=
  match e with
  | CallSearch o query _ =>
      ∃ s, m !! o = Some s ∧ built s = true ∧ query ≠ EmptyString
           ∧ minLength (settings s) ≤ Z.of_nat (String.length query)
  | _ => True
  end.

(** From [w] to [w'] objects were kept and the trace only grew, by calls
    of [searchFn] that are in order and by other effects. *)
Definition extends (w w' : World) : Prop :=
  kept w w'
  ∧ ∃ new, trace w' = trace w ++ new ∧ Forall (search_ok (objs w')) new.
(** * Properties *)

(** ** Reading the stores after an update *)

Lemma objs_upd_obj o f w o' :
  objs (upd_obj o f w) !! o' =
  if decide (o = o') then f <$> objs w !! o' else objs w !! o'.
Proof.
  unfold upd_obj; simpl. case_decide; subst.
  - apply lookup_alter_eq.
  - by apply lookup_alter_ne.
Qed.

Lemma nodes_upd_node n f w n' :
  nodes (upd_node n f w) !! n' =
  if decide (n = n') then f <$> nodes w !! n' else nodes w !! n'.
Proof.
  unfold upd_node; simpl. case_decide; subst.
  - apply lookup_alter_eq.
  - by apply lookup_alter_ne.
Qed.

Lemma get_built_Some o w s :
  get_built o w = Some s ↔ objs w !! o = Some s ∧ built s = true.
Proof.
  unfold get_built. destruct (objs w !! o) as [s0|]; simpl.
  - destruct (built s0) eqn:E; split; intros H.
    + by inversion H; subst.
    + destruct H as [H _]. by inversion H.
    + discriminate.
    + destruct H as [H1 H2]. inversion H1; subst. congruence.
  - split; [discriminate | intros [H _]; discriminate].
Qed.

Lemma String_eqb_empty (v : string) :
  String.eqb v EmptyString = true ↔ v = EmptyString.
Proof. apply String.eqb_eq. Qed.

(** ** Marks on the children of the list *)

Lemma querySelector_Some cls l i :
  querySelector cls l = Some i ↔ first_with cls l i.
Proof.
  unfold querySelector, first_with. split.
  - destruct (list_find _ l) as [[k e]|] eqn:E; simpl; [|discriminate].
    intros [= <-]. apply list_find_Some in E as (H1 & H2 & H3).
    exists e. split_and!; [done..|].
    intros j c Hj Hlt. specialize (H3 j c Hj Hlt).
    by destruct (cls c).
  - intros (e & H1 & H2 & H3).
    assert (list_find (λ e, cls e = true) l = Some (i, e)) as ->; [|done].
    apply list_find_Some. split_and!; [done..|].
    intros j c Hj Hlt. rewrite (H3 j c Hj Hlt). discriminate.
Qed.

Lemma querySelector_None cls l :
  querySelector cls l = None ↔ none_with cls l.
Proof.
  unfold querySelector, none_with. split.
  - destruct (list_find _ l) as [[k e]|] eqn:E; simpl; [discriminate|].
    intros _ j c Hj. apply list_find_None in E.
    rewrite Forall_lookup in E. specialize (E j c Hj).
    by destruct (cls c).
  - intros H.
    assert (list_find (λ e, cls e = true) l = None) as ->; [|done].
    apply list_find_None, Forall_lookup. intros j c Hj.
    rewrite (H j c Hj). discriminate.
Qed.

Lemma currentEl_spec s : current_is (children s) (currentEl s).
Proof.
  unfold currentEl.
  destruct (querySelector hover (children s)) as [i|] eqn:Eh.
  - apply current_hover. by apply querySelector_Some.
  - apply querySelector_None in Eh.
    destruct (querySelector active (children s)) as [i|] eqn:Ea.
    + apply current_active; [done|]. by apply querySelector_Some.
    + apply current_none; [done|]. by apply querySelector_None.
Qed.





(** ** Moving the highlight *)





Lemma current_is_lt l c i : current_is l c → c = Some i → (i < length l)%nat.
Proof.
  intros H ->. inversion H as [? (e & He & _)|? _ (e & He & _)|]; subst;
    by eapply lookup_lt_Some.
Qed.

(** Taking the highlight off the current element and putting it on [j]
    leaves it on [j] alone, when at most one child was highlighted. *)
Lemma rehover_only_at (l : list Elem) (c : option nat) (j : nat) :
  at_most_one hover l → current_is l c → (j < length l)%nat →
  only_at hover
    (alter (set_hover true) j
       (match c with
        | Some i => alter (set_hover false) i l
        | None => l
        end)) j.
Proof.
  intros Hone Hc Hj k e. destruct (decide (j = k)) as [->|Hne].
  - rewrite list_lookup_alter_eq.
    destruct (_ !! k) eqn:E; simpl; [|discriminate]. by intros [= <-].
  - rewrite list_lookup_alter_ne by done. intros Hk.
    split; [|congruence]. intros He. exfalso.
    destruct Hc as [i (d & Hd & Hh & _)|i Hn _|Hn _].
    + destruct (decide (i = k)) as [->|Hik].
      * rewrite list_lookup_alter_eq in Hk.
        destruct (l !! k); simpl in Hk; [|discriminate].
        injection Hk as <-. discriminate.
      * rewrite list_lookup_alter_ne in Hk by done.
        apply Hik. by eapply Hone.
    + destruct (decide (i = k)) as [->|Hik].
      * rewrite list_lookup_alter_eq in Hk.
        destruct (l !! k); simpl in Hk; [|discriminate].
        injection Hk as <-. discriminate.
      * rewrite list_lookup_alter_ne in Hk by done.
        specialize (Hn k e Hk). congruence.
    + specialize (Hn k e Hk). congruence.
Qed.

Lemma rehover_keeps {A} (f : Elem → A) (l : list Elem) (c : option nat)
    (j : nat) :
  (∀ b e, f (set_hover b e) = f e) →
  f <$> alter (set_hover true) j
          (match c with
           | Some i => alter (set_hover false) i l
           | None => l
           end) = f <$> l.
Proof.
  intros Hf. apply list_eq. intros k. rewrite !list_lookup_fmap.
  assert (∀ b i (l' : list Elem),
            f <$> alter (set_hover b) i l' !! k = f <$> l' !! k) as Halt.
  { intros b i l'. destruct (decide (i = k)) as [->|Hne].
    - rewrite list_lookup_alter_eq. destruct (l' !! k); simpl; [|done].
      by rewrite Hf.
    - by rewrite list_lookup_alter_ne. }
  rewrite Halt. destruct c; [apply Halt | done].
Qed.



Lemma only_at_at_most_one cls (l : list Elem) (j : nat) :
  only_at cls l j → at_most_one cls l.
Proof.
  intros H a b c d Ha Hb Hc Hd.
  apply (H a c Ha) in Hc. apply (H b d Hb) in Hd. congruence.
Qed.

Lemma none_with_at_most_one cls (l : list Elem) :
  none_with cls l → at_most_one cls l.
Proof. intros H a b c d Ha _ Hc _. specialize (H a c Ha). congruence. Qed.

Lemma none_with_fmap cls (l l' : list Elem) :
  cls <$> l' = cls <$> l → none_with cls l → none_with cls l'.
Proof.
  intros Heq H j c Hj.
  assert ((cls <$> l) !! j = Some (cls c)) as Hl.
  { rewrite <- Heq, list_lookup_fmap, Hj. done. }
  rewrite list_lookup_fmap in Hl.
  destruct (l !! j) as [d|] eqn:E; simpl in Hl; [|discriminate].
  injection Hl as <-. by apply (H j d).
Qed.




(** ** What holds of every reachable world *)

(** *** The primitive updates keep [wf] *)

Lemma wf_emit e w : wf w → wf (emit e w).
Proof. intros [????? ?????]. by split. Qed.

Lemma wf_set_inflight l w : wf w → wf (set_inflight l w).
Proof. intros [????? ?????]. by split. Qed.

Lemma wf_set_clock t w : wf w → wf (set_clock t w).
Proof. intros [????? ?????]. by split. Qed.

Lemma wf_bump k w : wf w → wf (bump k w).
Proof.
  intros [H1 H2 H3 H4 H5 H6 H7 H8 H9 H10]. split; simpl; try done.
  - intros o Ho. specialize (H1 o Ho). lia.
  - eapply Forall_impl; [exact H2|]. simpl. intros t Ht. lia.
Qed.

Lemma wf_upd_obj o f w :
  (∀ s, objs w !! o = Some s → keeps f s) → wf w → wf (upd_obj o f w).
Proof.
  intros Hf [H1 H2 H3 H4 H5 H6 H7 H8 H9 H10]. split; simpl; try done.
  - intros o' Ho'. apply H1. by apply lookup_alter_is_Some in Ho'.
  - eapply Forall_impl; [exact H4|]. simpl. intros t Ht.
    by apply lookup_alter_is_Some.
  - intros o' s'. rewrite lookup_alter. case_decide as E.
    + subst o'. destruct (objs w !! o) as [s|] eqn:Ho; simpl; [|done].
      intros [= <-]. destruct (Hf s eq_refl) as (_ & _ & -> & _).
      by apply (H5 o).
    + apply H5.
  - intros n o' Hn. destruct (H7 n o' Hn) as (s & Hs & Hb & Hi).
    rewrite lookup_alter. case_decide as E.
    + subst o'. rewrite Hs. simpl. eexists. split; [done|].
      destruct (Hf s Hs) as (-> & -> & _). done.
    + eauto.
  - intros o' s'. rewrite lookup_alter. case_decide as E.
    + subst o'. destruct (objs w !! o) as [s|] eqn:Ho; simpl; [|done].
      intros [= <-]. destruct (Hf s eq_refl) as (-> & -> & _).
      by apply (H9 o).
    + apply H9.
  - intros o' s'. rewrite lookup_alter. case_decide as E.
    + subst o'. destruct (objs w !! o) as [s|] eqn:Ho; simpl; [|done].
      intros [= <-]. destruct (Hf s eq_refl) as (_ & _ & _ & Hk).
      apply Hk. by apply (H10 o).
    + apply H10.
Qed.

Lemma wf_upd_node n g w :
  (∀ nd, wrapper (g nd) = wrapper nd) → wf w → wf (upd_node n g w).
Proof.
  intros Hg [H1 H2 H3 H4 H5 H6 H7 H8 H9 H10]. split; simpl; try done.
  - intros m. rewrite <- H8. unfold listener_of. simpl.
    rewrite lookup_alter. case_decide as E; [|done].
    subst m. destruct (nodes w !! n); simpl; [|done]. apply Hg.
  - intros o s Ho Hb. destruct (H9 o s Ho Hb) as (m & Hm & Hnd).
    exists m. split; [done|]. by apply lookup_alter_is_Some.
Qed.

(** *** Functions applied to an object in place *)

Lemma at_most_one_fmap cls (l l' : list Elem) :
  cls <$> l' = cls <$> l → at_most_one cls l → at_most_one cls l'.
Proof.
  intros Heq H j k c d Hj Hk Hc Hd.
  assert (∀ i e, l' !! i = Some e → ∃ e', l !! i = Some e' ∧ cls e' = cls e)
    as Hback.
  { intros i e Hi.
    assert ((cls <$> l) !! i = Some (cls e)) as Hl.
    { by rewrite <- Heq, list_lookup_fmap, Hi. }
    rewrite list_lookup_fmap in Hl.
    destruct (l !! i) as [e'|]; simpl in Hl; [|discriminate].
    injection Hl as Hl. eauto. }
  destruct (Hback j c Hj) as (c' & Hc' & Ec).
  destruct (Hback k d Hk) as (d' & Hd' & Ed).
  eapply H; eauto; congruence.
Qed.

Lemma fmap_eq_not_nil {A B} (f : A → B) (l l' : list A) :
  f <$> l' = f <$> l → l ≠ [] → l' ≠ [].
Proof. intros H Hl ->. destruct l; [done | discriminate]. Qed.

Lemma at_most_one_nil cls : at_most_one cls [].
Proof. intros j k c d Hj. by rewrite lookup_nil in Hj. Qed.

Lemma keeps_hide_list s : keeps hide_list s.
Proof.
  unfold keeps, obj_ok. split_and!; try done. intros (?&?&?). by split_and!. Qed.

Lemma keeps_show_list s : keeps show_list s.
Proof.
  unfold keeps, obj_ok.
  unfold show_list. destruct (children s) eqn:E; split_and!; try done.
  - by rewrite E.
  - intros (?&?&?). simpl. rewrite E. by split_and!.
Qed.

Lemma keeps_spinner_show s : keeps spinner_show s.
Proof.
  unfold keeps, obj_ok. by split_and!. Qed.

Lemma keeps_spinner_hide s : keeps spinner_hide s.
Proof.
  unfold keeps, obj_ok. by split_and!. Qed.

Lemma keeps_spinner_destroy s : keeps spinner_destroy s.
Proof.
  unfold keeps, obj_ok. by split_and!. Qed.

Lemma keeps_compose f g s : keeps g s → keeps f (g s) → keeps (f ∘ g) s.
Proof.
  unfold keeps.
  intros (A1 & A2 & A3 & A4) (B1 & B2 & B3 & B4).
  split_and!; simpl; try congruence. auto.
Qed.

Lemma keeps_no_children s :
  listEl_show s = false → keeps (set_children []) s.
Proof.
  unfold keeps, obj_ok.
  intros Hs. split_and!; try done. intros _.
  split_and!; simpl; [apply at_most_one_nil.. | congruence].
Qed.

Lemma keeps_hide_no_children s : keeps (λ s, set_children [] (hide_list s)) s.
Proof.
  apply (keeps_compose (set_children []) hide_list).
  - apply keeps_hide_list.
  - by apply keeps_no_children.
Qed.

(** Children without any mark, shown. *)
Lemma keeps_fresh_children (l : list Elem) s :
  l ≠ [] → none_with hover l → none_with active l →
  keeps (λ s, show_list (set_children l s)) s.
Proof.
  unfold keeps, obj_ok.
  intros Hl Hh Ha. unfold show_list. simpl.
  destruct l as [|e l]; [done|]. split_and!; try done. intros _.
  split_and!; simpl; try done; by apply none_with_at_most_one.
Qed.

Lemma keeps_fresh_children_hidden (l : list Elem) s :
  l ≠ [] → none_with hover l → none_with active l →
  keeps (λ s, show_list (set_children l (hide_list s))) s.
Proof.
  unfold keeps, obj_ok.
  intros Hl Hh Ha. unfold show_list. simpl.
  destruct l as [|e l]; [done|]. split_and!; try done. intros _.
  split_and!; simpl; try done; by apply none_with_at_most_one.
Qed.

Lemma none_with_imap_newElement cls st q (base : nat) (list : list JsVal) :
  (∀ id item, cls (newElement st q id item) = false) →
  none_with cls (imap (λ k, newElement st q (base + k)%nat) list).
Proof.
  intros Hcls j c. rewrite list_lookup_imap.
  destruct (list !! j); simpl; [|discriminate]. by intros [= <-].
Qed.

Lemma keeps_rehover s (c : option nat) (j : nat) :
  current_is (children s) c → (j < length (children s))%nat →
  keeps (λ s', set_children
                 (alter (set_hover true) j
                    (match c with
                     | Some i => alter (set_hover false) i (children s')
                     | None => children s'
                     end)) s') s.
Proof.
  unfold keeps, obj_ok.
  intros Hc Hj. split_and!; try done. intros (Hh & Ha & Hs).
  split_and!; simpl.
  - eapply only_at_at_most_one.
    pose proof (rehover_only_at (children s) c j Hh Hc Hj) as H.
    destruct c; exact H.
  - eapply at_most_one_fmap; [|exact Ha].
    pose proof (rehover_keeps active (children s) c j ltac:(done)) as H.
    destruct c; exact H.
  - intros E. eapply fmap_eq_not_nil; [|exact (Hs E)].
    pose proof (rehover_keeps el_id (children s) c j ltac:(done)) as H.
    destruct c; exact H.
Qed.

Lemma keeps_commit s (i : nat) :
  keeps (λ s, hide_list
                (set_children
                   (alter (set_active true) i
                      ((λ c, set_hover false (set_active false c))
                         <$> children s)) s)) s.
Proof.
  unfold keeps, obj_ok.
  split_and!; try done. intros _. split_and!; simpl; [| |done].
  - apply none_with_at_most_one. intros j c.
    destruct (decide (i = j)) as [->|Hne].
    + rewrite list_lookup_alter_eq, list_lookup_fmap.
      destruct (children s !! j); simpl; [|discriminate]. by intros [= <-].
    + rewrite list_lookup_alter_ne, list_lookup_fmap by done.
      destruct (children s !! j); simpl; [|discriminate]. by intros [= <-].
  - apply (only_at_at_most_one _ _ i). intros j c.
    destruct (decide (i = j)) as [->|Hne].
    + rewrite list_lookup_alter_eq, list_lookup_fmap.
      destruct (children s !! j); simpl; [|discriminate]. by intros [= <-].
    + rewrite list_lookup_alter_ne, list_lookup_fmap by done.
      destruct (children s !! j); simpl; [|discriminate].
      intros [= <-]. simpl. split; [discriminate | congruence].
Qed.

Lemma keeps_dismiss s :
  keeps (λ s, hide_list (set_children (set_hover false <$> children s) s)) s.
Proof.
  unfold keeps, obj_ok.
  split_and!; try done. intros (_ & Ha & _). split_and!; simpl; [| |done].
  - apply none_with_at_most_one. intros j c. rewrite list_lookup_fmap.
    destruct (children s !! j); simpl; [|discriminate]. by intros [= <-].
  - eapply at_most_one_fmap; [|exact Ha].
    rewrite <- list_fmap_compose. by apply list_fmap_ext.
Qed.

(** *** The methods keep [wf] *)

Lemma wf_show o w w' : wf w → show o w = Some w' → wf w'.
Proof.
  unfold show. intros Hwf H. destruct (get_built o w); simplify_eq/=.
  apply wf_upd_obj; [|done]. intros; apply keeps_show_list.
Qed.

Lemma wf_hide o w w' : wf w → hide o w = Some w' → wf w'.
Proof.
  unfold hide. intros Hwf H. destruct (get_built o w); simplify_eq/=.
  apply wf_upd_obj; [|done]. intros; apply keeps_hide_list.
Qed.

Lemma wf_clear o w w' : wf w → clear o w = Some w' → wf w'.
Proof.
  unfold clear. intros Hwf H.
  destruct (get_built o w) as [s|]; simplify_eq/=.
  destruct (inputEl s) as [n|]; simplify_eq/=.
  apply wf_emit, wf_upd_obj.
  - intros s'. simpl. rewrite lookup_alter_eq.
    destruct (objs w !! o); simpl; [|done]. intros [= <-].
    by apply keeps_no_children.
  - apply wf_upd_node; [done|]. apply wf_upd_obj; [|done].
    intros; apply keeps_hide_list.
Qed.

Lemma wf_updateList o list w w' : wf w → updateList o list w = Some w' → wf w'.
Proof.
  unfold updateList. intros Hwf H.
  destruct (get_built o w) as [s|]; simplify_eq/=.
  destruct (inputEl s) as [n|]; simplify_eq/=.
  destruct (nodes w !! n) as [nd|]; simplify_eq/=.
  destruct list as [|x list]; simpl.
  - apply wf_upd_obj; [|by apply wf_bump].
    intros; apply keeps_hide_no_children.
  - apply wf_upd_obj; [|by apply wf_bump].
    intros s' _.
    apply (keeps_fresh_children
             (imap (λ k, newElement (settings s) (value nd) (fresh w + k)%nat)
                (x :: list))); [done|..];
      by apply none_with_imap_newElement.
Qed.

Lemma wf_showError o message w w' :
  wf w → showError o message w = Some w' → wf w'.
Proof.
  unfold showError. intros Hwf H.
  destruct (get_built o w) as [s|]; simplify_eq/=.
  apply wf_emit, wf_upd_obj; [|by apply wf_bump].
  intros s' _. apply (keeps_fresh_children_hidden [errorEl (fresh w) message]);
    [done|..]; intros [|j] c; simpl; try done; by intros [= <-].
Qed.

Lemma wf_refresh o w w' : wf w → refresh o w = Some w' → wf w'.
Proof.
  unfold refresh. intros Hwf H.
  destruct (objs w !! o) as [s|]; simplify_eq/=.
  destruct (inputEl s) as [n|]; simplify_eq/=.
  destruct (nodes w !! n) as [nd|]; simplify_eq/=.
  destruct (String.eqb (value nd) EmptyString).
  - destruct (clear o w) as [w1|] eqn:E; simplify_eq/=.
    apply wf_upd_obj; [intros; apply keeps_spinner_hide|].
    by eapply wf_clear.
  - destruct (_ <? _); [by simplify_eq|].
    destruct (get_built o w); simplify_eq/=.
    apply wf_set_inflight, wf_emit, wf_upd_obj; [|by apply wf_bump].
    intros; apply keeps_spinner_show.
Qed.

Lemma wf_refresh_resume p r w w' :
  wf w → refresh_resume p r w = Some w' → wf w'.
Proof.
  unfold refresh_resume. intros Hwf H.
  destruct (find_pending p (inflight w)) as [pd|]; simplify_eq/=.
  destruct (objs w !! pend_owner pd) as [s|]; simplify_eq/=.
  destruct (inputEl s) as [n|]; simplify_eq/=.
  destruct (nodes w !! n) as [nd|]; simplify_eq/=.
  pose proof (wf_set_inflight (drop_pending p (inflight w)) w Hwf) as Hwf1.
  destruct r as [list|message].
  - destruct (negb _); [by simplify_eq|].
    destruct (updateList _ _ _) as [w2|] eqn:E; simplify_eq/=.
    apply wf_upd_obj; [intros; apply keeps_spinner_hide|].
    by eapply wf_updateList.
  - destruct (showError _ _ _) as [w2|] eqn:E; simplify_eq/=.
    apply wf_upd_obj; [intros; apply keeps_spinner_hide|].
    by eapply wf_showError.
Qed.

Lemma next_position_lt (cp : SiblingProp) (lp : ChildProp) (c : option nat)
    (n j : nat) :
  (∀ i, c = Some i → (i < n)%nat) →
  match c with
  | Some i => match sibling cp i n with
              | Some j => Some j
              | None => child lp n
              end
  | None => child lp n
  end = Some j →
  (j < n)%nat.
Proof.
  intros Hc H.
  assert (∀ k, child lp n = Some k → (k < n)%nat) as Hchild.
  { intros k. destruct n; simpl; [done|]. intros [= <-]. destruct lp; lia. }
  destruct c as [i|]; [|by apply Hchild].
  specialize (Hc i eq_refl).
  destruct (sibling cp i n) as [k|] eqn:E; [|by apply Hchild].
  injection H as ->. destruct cp; simpl in E.
  - case_decide; simplify_eq. lia.
  - destruct i; simplify_eq. lia.
Qed.

Lemma wf_moveHover o cp lp w w' : wf w → moveHover o cp lp w = Some w' → wf w'.
Proof.
  unfold moveHover. intros Hwf H.
  destruct (get_built o w) as [s|] eqn:Hg; simplify_eq/=.
  apply get_built_Some in Hg as [Ho Hb].
  match type of H with (?x ≫= _) = _ => destruct x as [j|] eqn:Hj end;
    simplify_eq/=.
  apply wf_upd_obj; [|by do 2 apply wf_emit].
  intros s'. simpl. rewrite Ho. intros [= <-].
  apply keeps_rehover; [apply currentEl_spec|].
  eapply next_position_lt; [|exact Hj].
  intros i Hi. eapply current_is_lt; [apply currentEl_spec | exact Hi].
Qed.

Lemma wf_select o t w w' : wf w → select o t w = Some w' → wf w'.
Proof.
  unfold select. intros Hwf H. destruct t as [| |i]; try by simplify_eq.
  destruct (get_built o w) as [s|]; simplify_eq/=.
  destruct (inputEl s) as [n|]; simplify_eq/=.
  destruct (children s !! i) as [e|]; simplify_eq/=.
  apply wf_emit, wf_upd_obj; [intros; apply keeps_commit|].
  by apply wf_upd_node.
Qed.

Lemma wf_findSelectedEl o key w w' :
  wf w → findSelectedEl o key w = Some w' → wf w'.
Proof.
  unfold findSelectedEl. intros Hwf H.
  destruct (get_built o w) as [s|]; simplify_eq/=.
  destruct (_ && _).
  - simplify_eq. by do 3 apply wf_emit.
  - eapply wf_select; [|exact H]. by do 2 apply wf_emit.
Qed.

Lemma wf_handleKeyEvent o key w w' :
  wf w → handleKeyEvent o key w = Some w' → wf w'.
Proof.
  unfold handleKeyEvent. intros Hwf H.
  destruct (get_built o w) as [s|]; simplify_eq/=.
  destruct (negb _).
  { destruct (_ || _); [by eapply wf_show | by simplify_eq]. }
  destruct (String.eqb key "ArrowDown"); [by eapply wf_moveHover|].
  destruct (String.eqb key "ArrowUp"); [by eapply wf_moveHover|].
  destruct (_ || _); [by eapply wf_findSelectedEl | by simplify_eq].
Qed.

Lemma wf_wrapper_click n o w w' : wf w → wrapper_click n o w = Some w' → wf w'.
Proof.
  unfold wrapper_click. intros Hwf H.
  destruct (nodes w !! n); simplify_eq/=.
  destruct (negb _); [by eapply wf_show | by eapply wf_hide].
Qed.

Lemma wf_list_click o t w w' : wf w → list_click o t w = Some w' → wf w'.
Proof.
  unfold list_click. intros Hwf H.
  destruct (get_built o w) as [s|]; simplify_eq/=.
  destruct (inputEl s); simplify_eq/=.
  case_bool_decide; [|done].
  eapply wf_select; [|exact H]. by apply wf_emit.
Qed.

Lemma wf_documentOnClick t w : wf w → wf (documentOnClick t w).
Proof.
  unfold documentOnClick. intros Hwf.
  induction (snd <$> map_to_list (initializedEls w)) as [|o l IH]; [done|].
  simpl. destruct (objs _ !! o) as [s|]; [|done].
  destruct (contains_target s t); [done|].
  apply wf_upd_obj; [|done]. intros; apply keeps_dismiss.
Qed.

(** *** Timers *)

Lemma filter_ext_in {A} (P Q : A → Prop) `{!∀ x, Decision (P x)}
    `{!∀ x, Decision (Q x)} (l : list A) :
  (∀ x, x ∈ l → P x ↔ Q x) → filter P l = filter Q l.
Proof.
  induction l as [|a l IH]; intros Hext; [done|].
  rewrite !filter_cons.
  rewrite IH by (intros x Hx; apply Hext; by right).
  apply decide_ext, Hext. by left.
Qed.

Lemma NoDup_fmap_filter {A B} (f : A → B) (P : A → Prop)
    `{!∀ x, Decision (P x)} (l : list A) :
  NoDup (f <$> l) → NoDup (f <$> filter P l).
Proof.
  intros Hnd. eapply sublist_NoDup; [exact Hnd|].
  apply fmap_sublist, sublist_filter.
Qed.

Lemma NoDup_fmap_inj_on {A B} (f : A → B) (l : list A) (x y : A) :
  NoDup (f <$> l) → x ∈ l → y ∈ l → f x = f y → x = y.
Proof.
  induction l as [|a l IH]; intros Hnd Hx Hy Hf; [by apply elem_of_nil in Hx|].
  rewrite fmap_cons in Hnd. apply NoDup_cons in Hnd as [Ha Hnd].
  apply elem_of_cons in Hx as [->|Hx]; apply elem_of_cons in Hy as [->|Hy].
  - done.
  - exfalso. apply Ha. rewrite Hf. by apply list_elem_of_fmap_2.
  - exfalso. apply Ha. rewrite <- Hf. by apply list_elem_of_fmap_2.
  - by apply IH.
Qed.

(** Cancelling the timer that [#timeoutId] names removes the object's one
    timer and no timer of any other object. *)
Lemma cancel_own_timer w o s id :
  wf w → objs w !! o = Some s → timeoutId s = Some id →
  filter (λ t, timer_owner t = o)
    (filter (λ t, timer_id t ≠ id) (timers w)) = []
  ∧ ∀ o', o' ≠ o →
      filter (λ t, timer_owner t = o')
        (filter (λ t, timer_id t ≠ id) (timers w)) = own_timers o' w.
Proof.
  intros Hwf Ho Hid.
  pose proof (wf_timeoutId w Hwf o s Ho) as Hown. rewrite Hid in Hown.
  simpl in Hown. unfold own_timers in *.
  destruct (filter (λ t, timer_owner t = o) (timers w)) as [|t0 [|??]] eqn:E;
    simplify_eq/=.
  assert (t0 ∈ filter (λ t, timer_owner t = o) (timers w)) as Ht0.
  { rewrite E. by left. }
  apply list_elem_of_filter in Ht0 as [Hto Ht0].
  split.
  - rewrite list_filter_filter.
    rewrite (list_filter_iff _
               (λ t, timer_id t ≠ timer_id t0 ∧ timer_owner t = o))
      by (intros ?; split; intros [??]; done).
    rewrite <- list_filter_filter, E. rewrite filter_cons_False; [done|].
    intros Hx. by apply Hx.
  - intros o' Hne. rewrite list_filter_filter. apply filter_ext_in.
    intros t Ht. split; [by intros [? _]|]. intros Hto'. split; [done|].
    intros Heq. apply Hne. rewrite <- Hto', <- Hto. f_equal.
    eapply NoDup_fmap_inj_on; [apply (wf_timer_nodup w Hwf)|done..].
Qed.

(** Replacing the timers and [#timeoutId] of [o] together. *)
Lemma wf_retime o tid (L : list Timer) k w :
  wf w → is_Some (objs w !! o) →
  Forall (λ t, (1 ≤ timer_id t ≤ k + next_id w)%nat) L →
  NoDup (timer_id <$> L) →
  Forall (λ t, is_Some (objs w !! timer_owner t)) L →
  timer_id <$> filter (λ t, timer_owner t = o) L = option_list tid →
  (∀ o', o' ≠ o → filter (λ t, timer_owner t = o') L = own_timers o' w) →
  wf (upd_obj o (set_timeoutId tid) (bump k (set_timers L w))).
Proof.
  intros [H1 H2 H3 H4 H5 H6 H7 H8 H9 H10] Ho HL1 HL2 HL3 HL4 HL5.
  split; simpl; try done.
  - intros o' Ho'. apply lookup_alter_is_Some in Ho'.
    specialize (H1 o' Ho'). lia.
  - eapply Forall_impl; [exact HL3|]. simpl. intros t Ht.
    by apply lookup_alter_is_Some.
  - intros o' s'. unfold own_timers. simpl. rewrite lookup_alter.
    case_decide as E.
    + subst o'. destruct (objs w !! o) as [s|]; simpl; [|done].
      by intros [= <-].
    + intros Ho'. rewrite HL5 by done. by apply H5.
  - intros n o' Hn. destruct (H7 n o' Hn) as (s & Hs & Hb & Hi).
    rewrite lookup_alter. case_decide as E; [|eauto].
    subst o'. rewrite Hs. simpl. eauto.
  - intros o' s'. rewrite lookup_alter. case_decide as E; [|apply H9].
    subst o'. destruct (objs w !! o) as [s|] eqn:Hs; simpl; [|done].
    intros [= <-]. exact (H9 o s Hs).
  - intros o' s'. rewrite lookup_alter. case_decide as E; [|apply H10].
    subst o'. destruct (objs w !! o) as [s|] eqn:Hs; simpl; [|done].
    intros [= <-]. exact (H10 o s Hs).
Qed.

Lemma truthy_own_timer w o s :
  wf w → objs w !! o = Some s →
  truthy (timeoutId s) = true ∨ timeoutId s = None.
Proof.
  intros Hwf Ho. destruct (timeoutId s) as [[|id]|] eqn:E; auto.
  exfalso. pose proof (wf_timeoutId w Hwf o s Ho) as Hown.
  rewrite E in Hown. simpl in Hown. unfold own_timers in Hown.
  destruct (filter _ (timers w)) as [|t0 ?] eqn:Ef; simplify_eq/=.
  assert (t0 ∈ filter (λ t, timer_owner t = o) (timers w)) as Ht0.
  { rewrite Ef. by left. }
  apply list_elem_of_filter in Ht0 as [_ Ht0].
  pose proof (wf_timer_ids w Hwf) as Hids.
  rewrite Forall_forall in Hids. specialize (Hids t0 Ht0). lia.
Qed.

(** What [#debounceRefresh] does: the timer [#timeoutId] names is
    cancelled, a new timer is armed for the object, due one interval from
    now, and [#timeoutId] names it. [L] is what is left of the armed
    timers after the cancellation. *)
Lemma debounceRefresh_spec o w s :
  wf w → objs w !! o = Some s →
  ∃ L, debounceRefresh o w =
       Some (upd_obj o (set_timeoutId (Some (fresh w)))
               (bump 1
                  (set_timers
                     (L ++ [{| timer_id := fresh w; timer_owner := o;
                               timer_due := clock w
                                            + Z.max 0 (debounce (settings s)) |}])
                     w)))
       ∧ Forall (λ t, (1 ≤ timer_id t ≤ next_id w)%nat) L
       ∧ NoDup (timer_id <$> L)
       ∧ Forall (λ t, is_Some (objs w !! timer_owner t)) L
       ∧ filter (λ t, timer_owner t = o) L = []
       ∧ ∀ o', o' ≠ o → filter (λ t, timer_owner t = o') L = own_timers o' w.
Proof.
  intros Hwf Ho.
  exists (if truthy (timeoutId s)
          then filter (λ t, timer_id t ≠ default 0%nat (timeoutId s)) (timers w)
          else timers w).
  split_and!.
  - unfold debounceRefresh. rewrite Ho. simpl. by destruct (truthy _).
  - destruct (truthy _); [|apply Hwf].
    apply Forall_forall. intros t Ht. apply list_elem_of_filter in Ht as [_ Ht].
    pose proof (wf_timer_ids w Hwf) as Hids.
    rewrite Forall_forall in Hids. by apply Hids.
  - destruct (truthy _); [|apply Hwf]. apply NoDup_fmap_filter, Hwf.
  - destruct (truthy _); [|apply Hwf].
    apply Forall_forall. intros t Ht. apply list_elem_of_filter in Ht as [_ Ht].
    pose proof (wf_timer_owner w Hwf) as Hown.
    rewrite Forall_forall in Hown. by apply Hown.
  - destruct (truthy_own_timer w o s Hwf Ho) as [Ht|Hn].
    + rewrite Ht. destruct (timeoutId s) as [id|] eqn:E; [|done].
      simpl. by eapply cancel_own_timer.
    + rewrite Hn. simpl.
      pose proof (wf_timeoutId w Hwf o s Ho) as Hown. rewrite Hn in Hown.
      simpl in Hown. by apply fmap_nil_inv in Hown.
  - destruct (truthy_own_timer w o s Hwf Ho) as [Ht|Hn].
    + rewrite Ht. destruct (timeoutId s) as [id|] eqn:E; [|done].
      simpl. by eapply cancel_own_timer.
    + rewrite Hn. done.
Qed.

Lemma wf_debounceRefresh o w w' :
  wf w → debounceRefresh o w = Some w' → wf w'.
Proof.
  intros Hwf H.
  destruct (objs w !! o) as [s|] eqn:Ho;
    [|by unfold debounceRefresh in H; rewrite Ho in H].
  destruct (debounceRefresh_spec o w s Hwf Ho)
    as (L & Hd & HL1 & HL2 & HL3 & HL4 & HL5).
  rewrite Hd in H. injection H as <-.
  apply wf_retime; try done.
  - apply Forall_app. split.
    + eapply Forall_impl; [exact HL1|]. simpl. lia.
    + apply Forall_singleton. unfold fresh. simpl. lia.
  - rewrite fmap_app. apply NoDup_app. split_and!; [done| |apply NoDup_singleton].
    intros x Hx. simpl. rewrite list_elem_of_singleton. intros ->.
    apply list_elem_of_fmap in Hx as (t & Ht & Hin).
    rewrite Forall_forall in HL1. specialize (HL1 t Hin).
    unfold fresh in Ht. lia.
  - apply Forall_app. split; [done|]. apply Forall_singleton. simpl.
    by rewrite Ho.
  - rewrite filter_app, HL4. simpl. rewrite filter_cons_True by done. done.
  - intros o' Hne. rewrite filter_app, HL5 by done.
    rewrite filter_cons_False; [by rewrite app_nil_r|]. simpl. congruence.
Qed.

Lemma wf_fire tm w : wf w → tm ∈ timers w → wf (fire tm w).
Proof.
  intros Hwf Htm. unfold fire, timer_callback.
  pose proof (wf_timer_owner w Hwf) as Hown.
  rewrite Forall_forall in Hown. destruct (Hown tm Htm) as [s Ho].
  assert (timeoutId s = Some (timer_id tm)) as Hid.
  { pose proof (wf_timeoutId w Hwf _ s Ho) as Hids.
    assert (tm ∈ own_timers (timer_owner tm) w) as Hin.
    { apply list_elem_of_filter. done. }
    destruct (own_timers (timer_owner tm) w) as [|t0 l] eqn:E;
      [by apply elem_of_nil in Hin|].
    destruct (timeoutId s); destruct l; simplify_eq/=.
    apply list_elem_of_singleton in Hin. by subst. }
  destruct (cancel_own_timer w _ s _ Hwf Ho Hid) as [Hnone Hothers].
  assert (wf (upd_obj (timer_owner tm) (set_timeoutId None)
                (clearTimeout (timer_id tm) w))) as Hwf1.
  { change (wf (upd_obj (timer_owner tm) (set_timeoutId None)
                  (bump 0 (set_timers
                             (filter (λ t, timer_id t ≠ timer_id tm) (timers w))
                             w)))).
    apply wf_retime; try done.
    - apply Forall_forall. intros t Ht.
      apply list_elem_of_filter in Ht as [_ Ht].
      pose proof (wf_timer_ids w Hwf) as Hids.
      rewrite Forall_forall in Hids. specialize (Hids t Ht). simpl. lia.
    - apply NoDup_fmap_filter, Hwf.
    - apply Forall_forall. intros t Ht.
      apply list_elem_of_filter in Ht as [_ Ht]. by apply Hown.
    - by rewrite Hnone. }
  destruct (refresh _ _) as [w2|] eqn:E; simpl; [|done].
  by eapply wf_refresh.
Qed.

Lemma earliest_elem (l : list Timer) (t : Timer) : earliest l = Some t → t ∈ l.
Proof.
  revert t. induction l as [|a l IH]; intros t; simpl; [done|].
  destruct (earliest l) as [t'|].
  - destruct (_ <? _); intros [= <-]; [right; by apply IH | left].
  - intros [= <-]. left.
Qed.

Lemma wf_advance_fuel fuel t w : wf w → wf (advance_fuel fuel t w).
Proof.
  revert w. induction fuel as [|k IH]; intros w Hwf; simpl; [done|].
  destruct (earliest (due_by t w)) as [tm|] eqn:E; [|done].
  apply IH, wf_fire; [by apply wf_set_clock|].
  apply earliest_elem in E. unfold due_by in E.
  apply list_elem_of_filter in E as [_ E]. exact E.
Qed.

Lemma wf_advance t w : wf w → wf (advance t w).
Proof. intros. unfold advance. by apply wf_set_clock, wf_advance_fuel. Qed.

(** *** Binding and unbinding an input *)

Lemma listener_of_upd_node n g w m :
  listener_of m (upd_node n g w) =
  if decide (n = m) then nd ← nodes w !! m; wrapper (g nd)
  else listener_of m w.
Proof.
  unfold listener_of. simpl. rewrite lookup_alter. case_decide; [|done].
  subst m. by destruct (nodes w !! n).
Qed.

Lemma wf_unbind n a w :
  wf w →
  wf (let w1 := set_initializedEls (delete n (initializedEls w))
                  (upd_node n (set_attrs a)
                     (upd_node n (set_wrapper None) w)) in
      if decide (size (initializedEls w1) = 0%nat)
      then set_documentListener false w1 else w1).
Proof.
  intros [H1 H2 H3 H4 H5 H6 H7 H8 H9 H10]. simpl.
  assert (∀ m, listener_of m (upd_node n (set_attrs a)
                                (upd_node n (set_wrapper None) w))
               = delete n (initializedEls w) !! m) as Hw.
  { intros m. rewrite listener_of_upd_node. case_decide as E.
    - subst m. simpl. rewrite lookup_alter_eq, lookup_delete_eq.
      by destruct (nodes w !! n).
    - rewrite listener_of_upd_node. rewrite decide_False by done.
      rewrite lookup_delete_ne by done. apply H8. }
  assert (∀ m o, delete n (initializedEls w) !! m = Some o →
                 initializedEls w !! m = Some o) as Hsub.
  { intros m o. rewrite lookup_delete_Some. by intros [_ ?]. }
  assert (∀ o s, objs w !! o = Some s → built s = true →
                 ∃ m, inputEl s = Some m
                      ∧ is_Some (alter (set_attrs a) n
                                   (alter (set_wrapper None) n (nodes w)) !! m))
    as Hb.
  { intros o s Ho Hbs. destruct (H9 o s Ho Hbs) as (m & Hm & Hnd).
    exists m. split; [done|]. by do 2 apply lookup_alter_is_Some. }
  case_decide as Hsz; split; simpl; try done.
  - apply map_size_empty_iff in Hsz. rewrite Hsz. split; [done|]. by intros [].
  - intros m o Hm. apply H7. by apply Hsub.
  - rewrite H6. split; [|intros _].
    + intros _. by apply map_size_non_empty_iff.
    + intros E. apply Hsz. rewrite E in *. by rewrite delete_empty.
  - intros m o Hm. apply H7. by apply Hsub.
Qed.

Lemma wf_destroy o w w' : wf w → destroy o w = Some w' → wf w'.
Proof.
  unfold destroy. intros Hwf H.
  destruct (get_built o w) as [s|]; simplify_eq/=.
  destruct (inputEl s) as [n|]; simplify_eq/=.
  destruct (nodes w !! n); simplify_eq/=.
  apply (wf_unbind n _ (upd_obj o spinner_destroy w)).
  apply wf_upd_obj; [|done]. intros; apply keeps_spinner_destroy.
Qed.

Lemma wf_alloc this obj w :
  wf w → objs w !! this = None → (this ≤ next_id w)%nat →
  timeoutId obj = None → obj_ok obj →
  (built obj = true → ∃ n, inputEl obj = Some n ∧ is_Some (nodes w !! n)) →
  wf (alloc this obj w).
Proof.
  intros [H1 H2 H3 H4 H5 H6 H7 H8 H9 H10] Hnew Hle Ht Hok Hb.
  split; simpl; try done.
  - intros o. rewrite lookup_insert_is_Some. intros [<-|[_ Ho]]; auto.
  - eapply Forall_impl; [exact H4|]. simpl. intros t Hto.
    rewrite lookup_insert_is_Some.
    destruct (decide (this = timer_owner t)); auto.
  - intros o s. rewrite lookup_insert. case_decide as E.
    + intros [= <-]. subst o. rewrite Ht. simpl.
      unfold own_timers. simpl.
      destruct (filter _ (timers w)) as [|t0 l] eqn:Ef; [done|]. exfalso.
      assert (t0 ∈ filter (λ t, timer_owner t = this) (timers w)) as Hin.
      { rewrite Ef. by left. }
      apply list_elem_of_filter in Hin as [Hto Hin].
      rewrite Forall_forall in H4. specialize (H4 t0 Hin).
      rewrite Hto, Hnew in H4. by destruct H4.
    + apply H5.
  - intros n o Hn. destruct (H7 n o Hn) as (s & Hs & Hbs & Hi).
    exists s. rewrite lookup_insert_ne; [done|]. intros <-. congruence.
  - intros o s. rewrite lookup_insert. case_decide as E.
    + intros [= <-]. exact Hb.
    + apply H9.
  - intros o s. rewrite lookup_insert. case_decide as E.
    + by intros [= <-].
    + apply H10.
Qed.

Lemma wf_bind n this a s w :
  wf w → objs w !! this = Some s → built s = true → inputEl s = Some n →
  is_Some (nodes w !! n) →
  wf (let w2 := upd_node n (set_attrs a)
                  (upd_node n (set_wrapper (Some this)) w) in
      let w3 := if decide (size (initializedEls w2) = 0%nat)
                then set_documentListener true w2 else w2 in
      set_initializedEls (<[n := this]> (initializedEls w3)) w3).
Proof.
  intros [H1 H2 H3 H4 H5 H6 H7 H8 H9 H10] Ho Hb Hi [nd Hnd]. simpl.
  assert (∀ m, listener_of m (upd_node n (set_attrs a)
                                (upd_node n (set_wrapper (Some this)) w))
               = <[n := this]> (initializedEls w) !! m) as Hw.
  { intros m. rewrite listener_of_upd_node. case_decide as E.
    - subst m. simpl. rewrite lookup_alter_eq, lookup_insert_eq, Hnd. done.
    - rewrite listener_of_upd_node. rewrite decide_False by done.
      rewrite lookup_insert_ne by done. apply H8. }
  assert (∀ m o, <[n := this]> (initializedEls w) !! m = Some o →
                 ∃ s', objs w !! o = Some s' ∧ built s' = true
                       ∧ inputEl s' = Some m) as Hreg.
  { intros m o. rewrite lookup_insert. case_decide as E.
    - intros [= <-]. subst m. eauto.
    - apply H7. }
  assert (∀ o s', objs w !! o = Some s' → built s' = true →
                  ∃ m, inputEl s' = Some m
                       ∧ is_Some (alter (set_attrs a) n
                                    (alter (set_wrapper (Some this)) n
                                       (nodes w)) !! m))
    as Hbuilt.
  { intros o s' Ho' Hbs. destruct (H9 o s' Ho' Hbs) as (m & Hm & Hmd).
    exists m. split; [done|]. by do 2 apply lookup_alter_is_Some. }
  case_decide as Hsz; split; simpl; try done.
  - split; [|done]. intros _. apply insert_non_empty.
  - rewrite H6. split; intros _; [apply insert_non_empty|].
    by apply map_size_non_empty_iff.
Qed.

Lemma destroy_frame o w w' :
  destroy o w = Some w' →
  next_id w' = next_id w ∧ selectors w' = selectors w
  ∧ (∀ k, objs w' !! k = None ↔ objs w !! k = None)
  ∧ (∀ m, is_Some (nodes w' !! m) ↔ is_Some (nodes w !! m)).
Proof.
  unfold destroy. intros H.
  destruct (get_built o w) as [s|]; simplify_eq/=.
  destruct (inputEl s) as [n|]; simplify_eq/=.
  destruct (nodes w !! n); simplify_eq/=.
  case_decide; simpl; split_and!; try done.
  - intros k. by rewrite lookup_alter_None.
  - intros m. by rewrite !lookup_alter_is_Some.
  - intros k. by rewrite lookup_alter_None.
  - intros m. by rewrite !lookup_alter_is_Some.
Qed.

Lemma obj_ok_unbuilt st n : obj_ok (unbuilt st n).
Proof. split_and!; simpl; [apply at_most_one_nil.. | done]. Qed.

Lemma wf_fresh_object w : wf w → objs w !! fresh w = None.
Proof.
  intros Hwf. destruct (objs w !! fresh w) eqn:E; [|done].
  pose proof (wf_ids w Hwf (fresh w) ltac:(eauto)) as Hle.
  unfold fresh in Hle. lia.
Qed.

Lemma wf_new_Suggest el options w w' :
  wf w → new_Suggest el options w = Some w' → wf w'.
Proof.
  unfold new_Suggest. intros Hwf H.
  pose proof (wf_fresh_object w Hwf) as Hnew.
  destruct (resolve_el el w) as [n|].
  2:{ simplify_eq.
      apply wf_emit, wf_alloc;
        [by apply wf_bump | done | simpl; unfold fresh; lia | done
        | apply obj_ok_unbuilt | done]. }
  match type of H with
  | (?x ≫= _) = _ => destruct x as [w1|] eqn:E1; simplify_eq/=
  end.
  assert (wf w1 ∧ objs w1 !! fresh w = None
          ∧ next_id w1 = S (next_id w)
          ∧ (∀ m, is_Some (nodes w1 !! m) ↔ is_Some (nodes w !! m)))
    as (Hwf1 & Hnew1 & Hnext1 & Hnodes1).
  { destruct (initializedEls w !! n) as [prior|].
    - destruct (destroy_frame _ _ _ E1) as (A & _ & B & C).
      split_and!; [| |done|done].
      + eapply wf_destroy; [|exact E1]. by apply wf_bump.
      + by apply B.
    - simplify_eq. split_and!; try done. by apply wf_bump. }
  destruct (negb _).
  { simplify_eq.
    apply wf_emit, wf_alloc;
      [done | done | unfold fresh; lia | done | apply obj_ok_unbuilt | done]. }
  destruct (nodes w1 !! n) as [nd|] eqn:End; simpl in H; [|discriminate].
  injection H as <-.
  refine (wf_bind n (fresh w) _ _ (alloc (fresh w) _ w1) _ _ _ _ _).
  - apply wf_alloc; [done | done | unfold fresh; lia | done | |].
    + split_and!; simpl; [apply at_most_one_nil.. | done].
    + intros _. simpl. eauto.
  - simpl. by rewrite lookup_insert_eq.
  - done.
  - done.
  - simpl. eauto.
Qed.

Lemma wf_attempt r w : (∀ w', r = Some w' → wf w') → wf w → wf (attempt r w).
Proof. intros H Hwf. destruct r; simpl; auto. Qed.

Lemma wf_on_wrapper n f w :
  (∀ o w', f o w = Some w' → wf w') → wf w → wf (on_wrapper n f w).
Proof.
  intros H Hwf. unfold on_wrapper. destruct (listener_of n w); [|done].
  apply wf_attempt; eauto.
Qed.

Lemma wf_on_document t w : wf w → wf (on_document t w).
Proof.
  intros. unfold on_document. destruct (documentListener w); [|done].
  by apply wf_documentOnClick.
Qed.

Lemma wf_step e w : wf w → wf (step e w).
Proof.
  intros Hwf. destruct e; simpl.
  - apply wf_attempt; eauto using wf_new_Suggest.
  - apply wf_attempt; eauto using wf_destroy.
  - apply wf_attempt; eauto using wf_show.
  - apply wf_attempt; eauto using wf_hide.
  - apply wf_attempt; eauto using wf_clear.
  - apply wf_attempt; eauto using wf_refresh.
  - apply wf_on_wrapper.
    + intros o w'. apply wf_debounceRefresh. by apply wf_upd_node.
    + by apply wf_upd_node.
  - apply wf_on_wrapper; eauto using wf_handleKeyEvent.
  - apply wf_on_document, wf_on_wrapper; eauto using wf_wrapper_click.
  - apply wf_attempt; eauto using wf_list_click.
  - by apply wf_on_document.
  - apply wf_attempt; eauto using wf_refresh_resume.
Qed.

Lemma wf_page inputs sels :
  (∀ n nd, inputs !! n = Some nd → wrapper nd = None) → wf (page inputs sels).
Proof.
  intros H. split; simpl; try done.
  - intros o. rewrite lookup_empty. by intros [].
  - apply NoDup_nil_2.
  - intros n. unfold listener_of. simpl. rewrite lookup_empty.
    destruct (inputs !! n) as [nd|] eqn:E; simpl; [|done]. by eapply H.
Qed.

Lemma reachable_wf w : reachable w → wf w.
Proof.
  induction 1 as [inputs sels H|e w _ IH|t w _ IH].
  - by apply wf_page.
  - by apply wf_step.
  - by apply wf_advance.
Qed.

Lemma reachable_run es w : reachable w → reachable (run es w).
Proof.
  revert w. induction es as [|[t e] es IH]; intros w H; simpl; [done|].
  apply IH, reach_step, reach_advance, H.
Qed.

Lemma sample_page_reachable : reachable sample_page.
Proof.
  apply reach_page. intros n nd. rewrite lookup_singleton_Some.
  by intros [_ <-].
Qed.


(** ** C1: the staleness guard *)

(** C1, as stated, fails: the guard compares values. The user typed [ab],
    went on to [abc] and came back to [ab], so two searches for [ab] are
    in flight. The later one resolves first and is rendered; the older one
    then resolves while the field still reads [ab], passes the guard and
    replaces the rendered children. *)
Lemma older_same_query_rerenders : ¬ older_result_never_alters.
Proof.
  intros H.
  opose proof* (H same_query_twice _ _
                  {| pend_id := 3; pend_owner := 1; pend_query := "ab" |}
                  {| pend_id := 6; pend_owner := 1; pend_query := "ab" |}
                  _ _ _ _ _ [JStr "abacus"] [JStr "abbey"]) as Hf;
    try (vm_compute; reflexivity).
  - simpl. lia.
  - vm_compute in Hf. discriminate.
Qed.

Lemma find_pending_cons (p : PromiseId) (x : Pending) (l : list Pending) :
  find_pending p (x :: l) =
  if decide (pend_id x = p) then Some x else find_pending p l.
Proof.
  unfold find_pending. simpl. case_decide; [done|].
  by destruct (list_find _ l) as [[??]|].
Qed.

(** Settling one promise leaves every other search in flight. *)
Lemma find_pending_drop (p p' : PromiseId) (l : list Pending) :
  p' ≠ p → find_pending p' (drop_pending p l) = find_pending p' l.
Proof.
  intros Hne. unfold drop_pending.
  induction l as [|x l IH]; [done|].
  rewrite filter_cons, (find_pending_cons p' x l). case_decide as Hx.
  - rewrite find_pending_cons. by case_decide.
  - case_decide; [congruence | done].
Qed.

(** C1 (amended): when the promise of a search is fulfilled, the result is
    rendered only if the field reads exactly the query captured at
    dispatch. If it reads anything else the result is dropped: nothing
    changes but that the promise is no longer in flight, and every other
    search stays in flight. If it reads the captured query the children of
    the list become the elements built from the result, in order, the
    list is shown unless the result is empty, and the spinner is hidden.
    So a search whose query differs from what the field reads when it
    resolves, as an older search does after the field moved on to another
    query, never alters the rendered list. *)
Theorem staleness_guard (w : World) (p : PromiseId) (pd : Pending)
    (s : Suggest) (n : NodeId) (nd : InputEl) (list : list JsVal) :
  find_pending p (inflight w) = Some pd →
  objs w !! pend_owner pd = Some s → inputEl s = Some n →
  nodes w !! n = Some nd →
  (value nd ≠ pend_query pd →
   refresh_resume p (Resolved list) w
   = Some (set_inflight (drop_pending p (inflight w)) w))
  ∧ (value nd = pend_query pd → built s = true →
     ∃ w' s',
       refresh_resume p (Resolved list) w = Some w'
       ∧ objs w' !! pend_owner pd = Some s'
       ∧ children s' =
           imap (λ k, newElement (settings s) (value nd) (fresh w + k)%nat)
             list
       ∧ listEl_show s' = bool_decide (list ≠ [])
       ∧ spinner_visible (spinner s') = false
       ∧ inflight w' = drop_pending p (inflight w)
       ∧ timers w' = timers w)
  ∧ (∀ p' pd', p' ≠ p → find_pending p' (inflight w) = Some pd' →
               find_pending p' (drop_pending p (inflight w)) = Some pd').
Proof.
  intros Hp Ho Hn Hnd. split_and!.
  - intros Hne. unfold refresh_resume. rewrite Hp; simpl.
    rewrite Ho; simpl. rewrite Hn; simpl. rewrite Hnd; simpl.
    destruct (String.eqb (value nd) (pend_query pd)) eqn:E; [|done].
    apply String.eqb_eq in E. contradiction.
  - intros He Hb. unfold refresh_resume, updateList. rewrite Hp; simpl.
    rewrite Ho; simpl. rewrite Hn; simpl. rewrite Hnd; simpl.
    apply String.eqb_eq in He as He'. rewrite He'; simpl.
    assert (get_built (pend_owner pd)
              (set_inflight (drop_pending p (inflight w)) w) = Some s) as Hg.
    { by apply get_built_Some. }
    rewrite Hg; simpl. rewrite Hn; simpl. rewrite Hnd; simpl.
    destruct list as [|x list]; simpl.
    + eexists _, _. split; [reflexivity|]. simpl.
      split. { rewrite !lookup_alter_eq, Ho. reflexivity. }
      done.
    + eexists _, _. split; [reflexivity|]. simpl.
      split. { rewrite !lookup_alter_eq, Ho. reflexivity. }
      done.
  - intros p' pd' Hne Hp'. by rewrite find_pending_drop.
Qed.

(** The hypotheses of [staleness_guard] hold of the search for [ab] that
    is in flight in [typed_ahead] while the field reads [abc]: its result
    is dropped. *)
Lemma staleness_guard_witness :
  refresh_resume 3%nat (Resolved [JStr "abacus"]) typed_ahead
  = Some (set_inflight (drop_pending 3%nat (inflight typed_ahead)) typed_ahead).
Proof.
  opose proof* (staleness_guard typed_ahead 3%nat _ _ _ _ [JStr "abacus"])
    as (H & _ & _); [vm_compute; reflexivity..|].
  apply H. vm_compute. discriminate.
Defined.

(** ** C2: destroying a widget *)

(** [destroy()] never touches the window's timers nor [#timeoutId]. *)
Lemma destroy_keeps_timers o w w' :
  destroy o w = Some w' →
  timers w' = timers w
  ∧ (timeoutId <$> objs w' !! o) = (timeoutId <$> objs w !! o).
Proof.
  unfold destroy. intros H.
  destruct (get_built o w) as [s|] eqn:Hg; simpl in H; [|discriminate].
  destruct (inputEl s) as [n|]; simpl in H; [|discriminate].
  destruct (nodes w !! n); simpl in H; [|discriminate].
  apply get_built_Some in Hg as [Ho _].
  case_decide; injection H as <-; simpl;
    rewrite lookup_alter_eq, Ho; done.
Qed.

(** When [destroy()] empties the registry it removes the document
    listener. *)
Lemma destroy_last_removes_listener o w w' :
  destroy o w = Some w' → initializedEls w' = ∅ →
  documentListener w' = false.
Proof.
  unfold destroy. intros H.
  destruct (get_built o w) as [s|]; simpl in H; [|discriminate].
  destruct (inputEl s) as [n|]; simpl in H; [|discriminate].
  destruct (nodes w !! n); simpl in H; [|discriminate].
  case_decide as Hsz; injection H as <-; simpl; [done|].
  intros E. rewrite E in Hsz. by rewrite map_size_empty in Hsz.
Qed.

(** C2 fails on the code: the user types [ab] at 10 ms and the widget is
    destroyed at 100 ms. [destroy()] empties the registry and removes the
    document listener, but the debounce timer armed at 10 ms is still in
    the window's table; at 260 ms it fires and [refresh] calls [searchFn]
    with [ab] on the destroyed widget. *)
Lemma destroy_leaves_timer_armed :
  timers destroyed_while_pending
  = [{| timer_id := 2; timer_owner := 1; timer_due := 260 |}]
  ∧ initializedEls destroyed_while_pending = ∅
  ∧ documentListener destroyed_while_pending = false
  ∧ trace destroyed_while_pending = []
  ∧ trace (advance 1000 destroyed_while_pending) = [CallSearch 1 "ab" 3].
Proof. vm_compute. done. Qed.

(** ** C3: queries that are empty or too short *)

(** C3, as stated, fails: with [minLength] 3 and the items for [abc] on
    show, a refresh for [ab] returns at the guard and the two items stay
    in the list. *)
Lemma short_query_keeps_list : ¬ short_query_clears_list.
Proof.
  intros H.
  edestruct (H short_after_long short_after_long 1%nat) as (s' & Hs' & Hc).
  - vm_compute. reflexivity.
  - reflexivity.
  - vm_compute. reflexivity.
  - vm_compute. discriminate.
  - vm_compute. reflexivity.
  - vm_compute. reflexivity.
  - vm_compute in Hs'. inversion Hs'; subst. vm_compute in Hc. discriminate.
Qed.

(** C3 (amended): a refresh with a non-empty query shorter than
    [minLength] returns without calling [searchFn] and without touching
    anything, the list included; a refresh with an empty query runs
    [clear()] (the list is hidden, the field is set to the empty string,
    the children are dropped, [clearFn] is called once), hides the
    spinner, and does not call [searchFn]. *)
Theorem refresh_short_or_empty (w : World) (o : ObjId) (s : Suggest)
    (n : NodeId) (nd : InputEl) :
  objs w !! o = Some s → inputEl s = Some n → nodes w !! n = Some nd →
  (value nd ≠ EmptyString →
   Z.of_nat (String.length (value nd)) < minLength (settings s) →
   refresh o w = Some w)
  ∧ (value nd = EmptyString → built s = true →
     ∃ w' s' nd',
       refresh o w = Some w'
       ∧ trace w' = trace w ++ [CallClear o]
       ∧ inflight w' = inflight w
       ∧ nodes w' !! n = Some nd' ∧ value nd' = EmptyString
       ∧ objs w' !! o = Some s'
       ∧ children s' = [] ∧ listEl_show s' = false
       ∧ spinner_visible (spinner s') = false).
Proof.
  intros Ho Hn Hnd. split.
  - intros Hne Hlt. unfold refresh. rewrite Ho; simpl. rewrite Hn; simpl.
    rewrite Hnd; simpl.
    destruct (String.eqb (value nd) EmptyString) eqn:E.
    + apply String_eqb_empty in E. contradiction.
    + apply Z.ltb_lt in Hlt. by rewrite Hlt.
  - intros He Hb. unfold refresh, clear.
    assert (Hg : get_built o w = Some s) by by apply get_built_Some.
    rewrite Ho; simpl. rewrite Hn; simpl. rewrite Hnd; simpl.
    apply String_eqb_empty in He as He'. rewrite He'.
    rewrite Hg; simpl. rewrite Hn; simpl.
    eexists _, _, _. split; [reflexivity|].
    split; [reflexivity|]. split; [reflexivity|].
    split.
    { simpl. rewrite lookup_alter_eq, Hnd. reflexivity. }
    split; [reflexivity|].
    split.
    { simpl. rewrite !lookup_alter_eq, Ho. reflexivity. }
    done.
Qed.

(** The hypotheses of [refresh_short_or_empty] hold of the page where the
    field reads [ab] under a [minLength] of 3, and of the page where the
    field was emptied while two items were on show. *)
Lemma refresh_short_or_empty_witness :
  refresh 1%nat short_after_long = Some short_after_long
  ∧ ∃ w', refresh 1%nat emptied_field = Some w'
          ∧ trace w' = trace emptied_field ++ [CallClear 1%nat].
Proof.
  split.
  - eapply (refresh_short_or_empty short_after_long 1%nat).
    + vm_compute. reflexivity.
    + reflexivity.
    + vm_compute. reflexivity.
    + vm_compute. discriminate.
    + vm_compute. reflexivity.
  - opose proof* (refresh_short_or_empty emptied_field 1%nat) as [_ H];
      [vm_compute; reflexivity | reflexivity | vm_compute; reflexivity |].
    destruct H as (w' & s' & nd' & H1 & H2 & _); [reflexivity..|].
    by exists w'.
Defined.

(** ** C4: debounce *)





















(** ** C5: committing an item *)

(** C5: [#select] on a child of the list sets the field to [labelFn] of
    the child's item, leaves no child highlighted and exactly that child
    active, hides the list and calls [selectFn(item, element)] once;
    handed [null] or the list element itself it does nothing. *)
Theorem select_commits (w : World) (o : ObjId) (s : Suggest) (n : NodeId)
    (nd : InputEl) (i : nat) (e : Elem) :
  objs w !! o = Some s → built s = true → inputEl s = Some n →
  nodes w !! n = Some nd → children s !! i = Some e →
  (∃ w' s' nd',
     select o (TChild i) w = Some w'
     ∧ nodes w' !! n = Some nd'
     ∧ value nd' = labelFn (settings s) (suggestItem e)
     ∧ objs w' !! o = Some s'
     ∧ listEl_show s' = false
     ∧ none_with hover (children s')
     ∧ only_at active (children s') i
     ∧ (el_id <$> children s') = (el_id <$> children s)
     ∧ (suggestItem <$> children s') = (suggestItem <$> children s)
     ∧ trace w' = trace w ++ [CallSelect o (suggestItem e) (el_id e)])
  ∧ select o TNull w = Some w
  ∧ select o TListEl w = Some w.
Proof.
  intros Ho Hb Hn Hnd Hi. split; [|done].
  assert (Hg : get_built o w = Some s) by by apply get_built_Some.
  unfold select. rewrite Hg; simpl. rewrite Hn; simpl. rewrite Hi; simpl.
  eexists _, _, _. split; [reflexivity|].
  split. { simpl. rewrite lookup_alter_eq, Hnd. reflexivity. }
  split; [reflexivity|].
  split. { simpl. rewrite lookup_alter_eq, Ho. reflexivity. }
  split; [reflexivity|]. simpl.
  split.
  { intros j c. destruct (decide (i = j)) as [->|Hne].
    - rewrite list_lookup_alter_eq, list_lookup_fmap.
      destruct (children s !! j); simpl; [|discriminate]. by intros [= <-].
    - rewrite list_lookup_alter_ne, list_lookup_fmap by done.
      destruct (children s !! j); simpl; [|discriminate]. by intros [= <-]. }
  split.
  { intros j c. destruct (decide (i = j)) as [->|Hne].
    - rewrite list_lookup_alter_eq, list_lookup_fmap.
      destruct (children s !! j); simpl; [|discriminate]. by intros [= <-].
    - rewrite list_lookup_alter_ne, list_lookup_fmap by done.
      destruct (children s !! j); simpl; [|discriminate].
      intros [= <-]. simpl. split; [discriminate | congruence]. }
  split.
  { apply list_eq. intros j. rewrite !list_lookup_fmap.
    destruct (decide (i = j)) as [->|Hne].
    - rewrite list_lookup_alter_eq, list_lookup_fmap.
      by destruct (children s !! j).
    - rewrite list_lookup_alter_ne, list_lookup_fmap by done.
      by destruct (children s !! j). }
  split; [|reflexivity].
  apply list_eq. intros j. rewrite !list_lookup_fmap.
  destruct (decide (i = j)) as [->|Hne].
  - rewrite list_lookup_alter_eq, list_lookup_fmap.
    by destruct (children s !! j).
  - rewrite list_lookup_alter_ne, list_lookup_fmap by done.
    by destruct (children s !! j).
Qed.

(** The hypotheses of [select_commits] hold of the second of three
    rendered items. *)
Lemma select_commits_witness :
  ∃ w', select 1%nat (TChild 1) three_items = Some w'
        ∧ trace w' = trace three_items ++ [CallSelect 1%nat (JStr "b") 5%nat].
Proof.
  edestruct (select_commits three_items 1%nat) with (i := 1%nat)
    as [(w' & s' & nd' & H1 & _ & _ & _ & _ & _ & _ & _ & _ & H2) _].
  - vm_compute. reflexivity.
  - reflexivity.
  - reflexivity.
  - vm_compute. reflexivity.
  - vm_compute. reflexivity.
  - exists w'. split; [exact H1 | exact H2].
Defined.

(** ** C6: the arrow keys *)




(** The ids of the three rendered elements are 4, 5 and 6. After one, two,
    three and four presses of ArrowDown on [three_items] the highlighted
    element is 4, 5, 6 and 4 again. *)
Lemma three_items_cycle :
  (λ k, w ← press k "ArrowDown" 1%nat three_items;
        s ← objs w !! 1%nat;
        i ← highlight s;
        el_id <$> children s !! i) <$> [1; 2; 3; 4]%nat
  = [Some 4; Some 5; Some 6; Some 4]%nat.
Proof. vm_compute. reflexivity. Qed.


(** ** C7: Enter and Tab *)



(** ** C8: a search that fails *)




(** ** C9: the registry and the document listener *)

(** Constructing on an input that is bound is destroying the instance
    bound to it and then constructing. *)
Lemma new_Suggest_rebinds w el options n prior :
  wf w → resolve_el el w = Some n → initializedEls w !! n = Some prior →
  ∃ w1, destroy prior w = Some w1
        ∧ initializedEls w1 !! n = None
        ∧ listener_of n w1 = None
        ∧ new_Suggest el options w = new_Suggest el options w1.
Proof.
  intros Hwf Hel Hreg.
  destruct (wf_registry w Hwf n prior Hreg) as (s & Ho & Hb & Hi).
  pose proof (wf_wrapper w Hwf n) as Hw. rewrite Hreg in Hw.
  unfold listener_of in Hw.
  destruct (nodes w !! n) as [nd|] eqn:Hnd; simpl in Hw; [|discriminate].
  assert (Hg : get_built prior w = Some s) by by apply get_built_Some.
  assert (Hg' : get_built prior (bump 1 w) = Some s) by exact Hg.
  assert (resolve_el el w = resolve_el el (bump 1 w)) as Hel' by by destruct el.
  unfold destroy. rewrite Hg; simpl. rewrite Hi; simpl. rewrite Hnd; simpl.
  eexists. split; [reflexivity|].
  unfold new_Suggest, destroy.
  rewrite Hel. simpl initializedEls. rewrite Hreg, Hg'. simpl.
  rewrite Hi; simpl. rewrite Hnd; simpl.
  case_decide as Hsz; simpl.
  - split; [apply lookup_delete_eq|].
    split.
    { unfold listener_of. simpl. rewrite !lookup_alter_eq, Hnd. done. }
    assert (resolve_el el
              (set_documentListener false
                 (set_initializedEls (delete n (initializedEls w))
                    (upd_node n
                       (set_attrs
                          (revertAttributes (originalAttributes s).1.1,
                           revertAttributes (originalAttributes s).1.2,
                           revertAttributes (originalAttributes s).2))
                       (upd_node n (set_wrapper None)
                          (upd_obj prior spinner_destroy w)))))
            = Some n) as -> by (by destruct el).
    simpl. rewrite lookup_delete_eq. reflexivity.
  - split; [apply lookup_delete_eq|].
    split.
    { unfold listener_of. simpl. rewrite !lookup_alter_eq, Hnd. done. }
    assert (resolve_el el
              (set_initializedEls (delete n (initializedEls w))
                 (upd_node n
                    (set_attrs
                       (revertAttributes (originalAttributes s).1.1,
                        revertAttributes (originalAttributes s).1.2,
                        revertAttributes (originalAttributes s).2))
                    (upd_node n (set_wrapper None)
                       (upd_obj prior spinner_destroy w))))
            = Some n) as -> by (by destruct el).
    simpl. rewrite lookup_delete_eq. reflexivity.
Qed.

(** C9: in every reachable world the document listener is installed if
    and only if the registry has an entry; the object whose wrapper sits
    around an input is the one the registry has for that input, a built
    object made for that input, and no object is registered for two
    inputs; constructing on an input that is bound first destroys the
    instance bound to it, which takes the input out of the registry, and
    then goes on as on an input that is not bound. *)
Theorem registry_invariant (w : World) :
  reachable w →
  (documentListener w = true ↔ initializedEls w ≠ ∅)
  ∧ (∀ n, listener_of n w = initializedEls w !! n)
  ∧ (∀ n o, initializedEls w !! n = Some o →
            ∃ s, objs w !! o = Some s ∧ built s = true ∧ inputEl s = Some n)
  ∧ (∀ n m o, initializedEls w !! n = Some o →
              initializedEls w !! m = Some o → n = m)
  ∧ (∀ el options n prior,
       resolve_el el w = Some n → initializedEls w !! n = Some prior →
       ∃ w1, destroy prior w = Some w1
             ∧ initializedEls w1 !! n = None
             ∧ listener_of n w1 = None
             ∧ new_Suggest el options w = new_Suggest el options w1).
Proof.
  intros Hr. apply reachable_wf in Hr as Hwf. split_and!.
  - apply Hwf.
  - apply Hwf.
  - apply Hwf.
  - intros n m o Hn Hm.
    destruct (wf_registry w Hwf n o Hn) as (s & Hs & _ & Hi).
    destruct (wf_registry w Hwf m o Hm) as (s' & Hs' & _ & Hi').
    congruence.
  - intros el options n prior. by apply new_Suggest_rebinds.
Qed.

(** The hypothesis of [registry_invariant] holds of [three_items], where
    one widget is bound, and of [destroyed_while_pending], where the only
    widget was destroyed. *)
Lemma registry_invariant_witness :
  (documentListener three_items = true ↔ initializedEls three_items ≠ ∅)
  ∧ (documentListener destroyed_while_pending = true
     ↔ initializedEls destroyed_while_pending ≠ ∅).
Proof.
  split.
  - apply (registry_invariant three_items).
    apply reachable_run, sample_page_reachable.
  - apply (registry_invariant destroyed_while_pending).
    apply reachable_run, sample_page_reachable.
Defined.

(** ** C10: a constructor without an element *)

(** C10: in a reachable world, when the first argument is [null], or a
    selector that matches nothing, the constructor does not throw: it logs
    the error and returns. The input elements, the registry, the document
    listener, the timers and the searches in flight are what they were,
    and so is every object that existed; the only new thing is the object
    under construction, none of whose fields but [#inputEl] was
    assigned. *)
Theorem constructor_without_element (w : World) (el : ElArg)
    (options : Options) :
  reachable w →
  el = ANull ∨ (∃ sel, el = ASelector sel ∧ selectors w !! sel = None) →
  ∃ w',
    new_Suggest el options w = Some w'
    ∧ nodes w' = nodes w
    ∧ initializedEls w' = initializedEls w
    ∧ documentListener w' = documentListener w
    ∧ timers w' = timers w
    ∧ inflight w' = inflight w
    ∧ trace w' = trace w ++ [ConsoleError msg_null]
    ∧ objs w' = <[fresh w := unbuilt defaultSettings None]> (objs w)
    ∧ (∀ o s, objs w !! o = Some s → objs w' !! o = Some s).
Proof.
  intros Hr Hel.
  pose proof (wf_fresh_object w (reachable_wf w Hr)) as Hfresh.
  assert (resolve_el el w = None) as Hres.
  { destruct Hel as [->|(sel & -> & Hsel)]; [done | exact Hsel]. }
  unfold new_Suggest. rewrite Hres.
  eexists. split; [reflexivity|]. simpl. split_and!; try done.
  intros o s Ho. rewrite lookup_insert_ne; [done|].
  intros <-. congruence.
Qed.

(** The hypotheses of [constructor_without_element] hold of [three_items]
    for [null] and for a selector the page does not know. *)
Lemma constructor_without_element_witness :
  (∃ w', new_Suggest ANull no_options three_items = Some w'
         ∧ initializedEls w' = initializedEls three_items
         ∧ documentListener w' = documentListener three_items)
  ∧ (∃ w', new_Suggest (ASelector "#missing") no_options three_items = Some w'
           ∧ initializedEls w' = initializedEls three_items
           ∧ documentListener w' = documentListener three_items).
Proof.
  assert (reachable three_items) as Hr
    by apply reachable_run, sample_page_reachable.
  split.
  - destruct (constructor_without_element three_items ANull no_options Hr)
      as (w' & H1 & _ & H2 & H3 & _).
    + left. reflexivity.
    + exists w'. by split_and!.
  - destruct (constructor_without_element three_items (ASelector "#missing")
                no_options Hr) as (w' & H1 & _ & H2 & H3 & _).
    + right. exists "#missing". split; [reflexivity|]. vm_compute. reflexivity.
    + exists w'. by split_and!.
Defined.


(** * More properties of [Suggest.js] *)

(** ** Rendering a result *)

Lemma imap_newElement_lookup st q (base : nat) (list : list JsVal) (k : nat) :
  imap (λ k, newElement st q (base + k)%nat) list !! k
  = newElement st q (base + k)%nat <$> list !! k.
Proof. by rewrite list_lookup_imap. Qed.

(** [updateList] builds one element per item of the result, in the order
    of the result and with nothing left out or merged: the item itself,
    its label as the title and the marked label as the content. No element
    is highlighted or active, the elements are new and distinct, the list
    is shown unless the result is empty, and neither the field nor the
    consumer is touched. *)
Theorem updateList_renders (w : World) (o : ObjId) (s : Suggest) (n : NodeId)
    (nd : InputEl) (list : list JsVal) :
  objs w !! o = Some s → built s = true → inputEl s = Some n →
  nodes w !! n = Some nd →
  ∃ w' s',
    updateList o list w = Some w'
    ∧ objs w' !! o = Some s'
    ∧ suggestItem <$> children s' = list
    ∧ el_kind <$> children s'
      = (λ item, ItemButton
                   (markFn (settings s) (value nd)
                      (labelFn (settings s) item) item)
                   (labelFn (settings s) item)) <$> list
    ∧ none_with hover (children s') ∧ none_with active (children s')
    ∧ NoDup (el_id <$> children s')
    ∧ Forall (λ id, (next_id w < id ≤ next_id w')%nat) (el_id <$> children s')
    ∧ listEl_show s' = bool_decide (list ≠ [])
    ∧ nodes w' = nodes w ∧ trace w' = trace w
    ∧ (∀ o', o' ≠ o → objs w' !! o' = objs w !! o').
Proof.
  intros Ho Hb Hn Hnd.
  assert (Hg : get_built o w = Some s) by by apply get_built_Some.
  set (fragment :=
         imap (λ k, newElement (settings s) (value nd) (fresh w + k)%nat) list).
  assert (∃ w' s', updateList o list w = Some w'
                   ∧ objs w' !! o = Some s' ∧ children s' = fragment
                   ∧ listEl_show s' = bool_decide (list ≠ [])
                   ∧ next_id w' = (length list + next_id w)%nat
                   ∧ nodes w' = nodes w ∧ trace w' = trace w
                   ∧ (∀ o', o' ≠ o → objs w' !! o' = objs w !! o'))
    as (w' & s' & H1 & H2 & H3 & H4 & H5 & H6 & H7 & H8).
  { unfold updateList. rewrite Hg; simpl. rewrite Hn; simpl.
    rewrite Hnd; simpl. subst fragment.
    destruct list as [|x list]; simpl.
    - eexists _, _. split; [reflexivity|]. simpl.
      rewrite lookup_alter_eq, Ho. simpl. split_and!; try done.
      intros o' Hne. by rewrite lookup_alter_ne.
    - eexists _, _. split; [reflexivity|]. simpl.
      rewrite lookup_alter_eq, Ho. simpl. split_and!; try done.
      intros o' Hne. by rewrite lookup_alter_ne. }
  exists w', s'. rewrite H3. split_and!; try done.
  - apply list_eq. intros k. rewrite list_lookup_fmap. unfold fragment.
    rewrite imap_newElement_lookup. by destruct (list !! k).
  - apply list_eq. intros k. rewrite !list_lookup_fmap. unfold fragment.
    rewrite imap_newElement_lookup. by destruct (list !! k).
  - by apply none_with_imap_newElement.
  - by apply none_with_imap_newElement.
  - apply NoDup_alt. intros i j id. rewrite !list_lookup_fmap. unfold fragment.
    rewrite !imap_newElement_lookup.
    destruct (list !! i); simpl; [|done]. destruct (list !! j); simpl; [|done].
    intros [= <-] [= E]. lia.
  - apply Forall_forall. intros id Hid.
    apply list_elem_of_lookup in Hid as [k Hk].
    rewrite list_lookup_fmap in Hk. unfold fragment in Hk.
    rewrite imap_newElement_lookup in Hk.
    destruct (list !! k) eqn:E; simplify_eq/=.
    apply lookup_lt_Some in E. rewrite H5. unfold fresh. lia.
Qed.

(** The hypotheses of [updateList_renders] hold of the widget of
    [typed_ahead] and a result of three items, one of them twice. *)
Lemma updateList_renders_witness :
  ∃ w' s',
    updateList 1%nat [JStr "b"; JStr "a"; JStr "b"] typed_ahead = Some w'
    ∧ objs w' !! 1%nat = Some s'
    ∧ suggestItem <$> children s' = [JStr "b"; JStr "a"; JStr "b"].
Proof.
  opose proof* (updateList_renders typed_ahead 1%nat _ 7%nat _
                  [JStr "b"; JStr "a"; JStr "b"])
    as (w' & s' & H1 & H2 & H3 & _);
    [vm_compute; reflexivity | reflexivity | reflexivity
    | vm_compute; reflexivity |].
  exists w', s'. exact (conj H1 (conj H2 H3)).
Defined.

(** ** Strings *)

Lemma string_length_app (a b : string) :
  String.length (a +:+ b) = (String.length a + String.length b)%nat.
Proof. induction a as [|c a IH]; simpl; [done | by rewrite IH]. Qed.

Lemma substring_all (s : string) : String.substring 0 (String.length s) s = s.
Proof. induction s as [|c s IH]; simpl; [done | by rewrite IH]. Qed.

Lemma substring_none (k : nat) (s : string) : String.substring k 0 s = EmptyString.
Proof. revert k. induction s as [|c s IH]; intros [|k]; simpl; auto. Qed.

Lemma substring_split (s : string) (k : nat) :
  (k ≤ String.length s)%nat →
  String.substring 0 k s +:+ String.substring k (String.length s - k) s = s.
Proof.
  revert k. induction s as [|c s IH]; intros k Hk; simpl in *.
  - by destruct k.
  - destruct k as [|k]; simpl.
    + by rewrite substring_all.
    + change (String c (String.substring 0 k s
                        +:+ String.substring k (String.length s - k) s)
              = String c s).
      by rewrite IH by lia.
Qed.

Lemma substring_past (s : string) (m : nat) :
  (String.length s ≤ m)%nat → String.substring 0 m s = s.
Proof.
  revert m. induction s as [|c s IH]; intros m Hm; simpl in *.
  - by destruct m.
  - destruct m as [|m]; [lia|]. rewrite IH by lia. done.
Qed.

Lemma substring_from_past (s : string) (k m : nat) :
  (String.length s ≤ k)%nat → String.substring k m s = EmptyString.
Proof.
  revert k m. induction s as [|c s IH]; intros k m Hk; simpl in *.
  - by destruct k, m.
  - destruct k as [|k]; [lia|]. apply IH. lia.
Qed.

Lemma substring_app_r (pre suf : string) :
  String.substring (String.length pre) (String.length suf) (pre +:+ suf) = suf.
Proof. induction pre as [|c pre IH]; simpl; [apply substring_all | done]. Qed.

Lemma substring_app_l (a b : string) :
  String.substring 0 (String.length a) (a +:+ b) = a.
Proof. induction a as [|c a IH]; simpl; [apply substring_none | by rewrite IH]. Qed.

Lemma prefix_app (p s : string) :
  String.prefix p s = true ↔ ∃ post, s = p +:+ post.
Proof.
  rewrite String.prefix_correct. split.
  - intros H. exists (String.substring (String.length p)
                        (String.length s - String.length p) s).
    destruct (decide (String.length p ≤ String.length s)%nat) as [Hle|Hgt].
    + rewrite <- (substring_split s (String.length p)) at 1 by done.
      by rewrite H.
    + rewrite substring_past in H by lia. subst p. lia.
  - intros [post ->]. apply substring_app_l.
Qed.

(** [endsWith] holds exactly of the strings that end with the suffix. *)
Lemma endsWith_spec (s suffix : string) :
  endsWith s suffix = true ↔ ∃ pre, s = pre +:+ suffix.
Proof.
  unfold endsWith. rewrite andb_true_iff, Nat.leb_le, String.eqb_eq. split.
  - intros [Hle H].
    exists (String.substring 0 (String.length s - String.length suffix) s).
    rewrite <- (substring_split s (String.length s - String.length suffix))
      at 1 by lia.
    replace (String.length s - (String.length s - String.length suffix))%nat
      with (String.length suffix) by lia.
    by rewrite H.
  - intros [pre ->]. rewrite string_length_app. split; [lia|].
    replace (String.length pre + String.length suffix - String.length suffix)%nat
      with (String.length pre) by lia.
    apply substring_app_r.
Qed.

Lemma indexOf_unfold (s needle : string) :
  indexOf s needle
  = if String.prefix needle s then Some O
    else match s with
         | EmptyString => None
         | String _ s' => S <$> indexOf s' needle
         end.
Proof. by destruct s. Qed.

(** [indexOf] finds the query where it first occurs, and fails only when
    it occurs nowhere. *)
Lemma indexOf_Some (s needle : string) (i : nat) :
  indexOf s needle = Some i →
  ∃ pre post, s = pre +:+ needle +:+ post ∧ String.length pre = i.
Proof.
  revert i. induction s as [|c s IH]; intros i; rewrite indexOf_unfold.
  - destruct (String.prefix needle EmptyString) eqn:E; [|done].
    intros [= <-]. apply prefix_app in E as [post E].
    by exists EmptyString, post.
  - destruct (String.prefix needle (String c s)) eqn:E.
    + intros [= <-]. apply prefix_app in E as [post E].
      by exists EmptyString, post.
    + destruct (indexOf s needle) as [j|]; simpl; [|done].
      intros [= <-]. destruct (IH j eq_refl) as (pre & post & -> & Hl).
      exists (String c pre), post. simpl. by rewrite Hl.
Qed.

Lemma indexOf_None (s needle : string) :
  indexOf s needle = None → ∀ pre post, s ≠ pre +:+ needle +:+ post.
Proof.
  induction s as [|c s IH]; rewrite indexOf_unfold.
  - destruct (String.prefix needle EmptyString) eqn:E; [done|].
    intros _ pre post H. destruct pre; simpl in H; [|done].
    assert (String.prefix needle EmptyString = true); [|congruence].
    apply prefix_app. by exists post.
  - destruct (String.prefix needle (String c s)) eqn:E; [done|].
    destruct (indexOf s needle) as [j|]; simpl; [done|].
    intros _ pre post H. destruct pre as [|c' pre]; simpl in H.
    + assert (String.prefix needle (String c s) = true); [|congruence].
      apply prefix_app. by exists post.
    + injection H as _ H. by apply (IH eq_refl pre post).
Qed.

Lemma indexOf_prefix (s needle : string) :
  String.prefix needle s = true → indexOf s needle = Some O.
Proof. intros H. by rewrite indexOf_unfold, H. Qed.

Lemma clamp_le (len : nat) (k : Z) : (clamp len k ≤ len)%nat.
Proof. unfold clamp. destruct (k <? 0) eqn:E; lia. Qed.

Lemma clamp_nonneg (len : nat) (k : nat) :
  clamp len (Z.of_nat k) = Nat.min k len.
Proof.
  unfold clamp. destruct (Z.of_nat k <? 0) eqn:E; [lia|].
  by rewrite Nat2Z.id.
Qed.

Lemma slice_head_min (s : string) (k : nat) :
  slice s 0 (Some (Z.of_nat k)) = String.substring 0 k s.
Proof.
  unfold slice. rewrite clamp_nonneg. change (clamp _ 0) with (Nat.min 0 (String.length s)).
  rewrite Nat.min_0_l, Nat.sub_0_r.
  destruct (decide (k ≤ String.length s)%nat).
  - by rewrite Nat.min_l.
  - rewrite Nat.min_r by lia. rewrite substring_all. by rewrite substring_past by lia.
Qed.

Lemma slice_tail (s : string) (k : nat) :
  slice s (Z.of_nat k) None
  = String.substring k (String.length s - k) s.
Proof.
  unfold slice. rewrite clamp_nonneg.
  destruct (decide (k ≤ String.length s)%nat).
  - by rewrite Nat.min_l.
  - rewrite Nat.min_r by lia. rewrite Nat.sub_diag, substring_none.
    by rewrite substring_from_past by lia.
Qed.

(** ** [mark.startsWith] *)

(** [mark.startsWith] only splits the label: what is inside the [mark]
    tags followed by what is after them is the label, whatever the query.
    When the lower-cased label starts with the lower-cased query, the
    first [query.length] characters of the label are marked. When the
    lower-cased query occurs nowhere in the lower-cased label, [indexOf]
    gives -1 and the first [query.length - 1] characters are marked. *)
Theorem startsWith_marks (toLowerCase : string → string)
    (query label : string) :
  (∃ a b, startsWith toLowerCase query label
          = "<mark>" +:+ a +:+ "</mark>" +:+ b
          ∧ a +:+ b = label)
  ∧ (String.prefix (toLowerCase query) (toLowerCase label) = true →
     startsWith toLowerCase query label
     = "<mark>" +:+ String.substring 0 (String.length query) label
       +:+ "</mark>"
       +:+ String.substring (String.length query)
             (String.length label - String.length query) label)
  ∧ ((∀ pre post, toLowerCase label ≠ pre +:+ toLowerCase query +:+ post) →
     (1 ≤ String.length query)%nat →
     startsWith toLowerCase query label
     = "<mark>" +:+ String.substring 0 (String.length query - 1) label
       +:+ "</mark>"
       +:+ String.substring (String.length query - 1)
             (String.length label - (String.length query - 1)) label).
Proof.
  split_and!.
  - eexists _, _. split; [reflexivity|].
    unfold slice. set (k := startsWith_index toLowerCase query label).
    change (clamp (String.length label) 0) with (Nat.min 0 (String.length label)).
    rewrite Nat.min_0_l, Nat.sub_0_r.
    apply substring_split, clamp_le.
  - intros Hp. unfold startsWith, startsWith_index.
    rewrite (indexOf_prefix _ _ Hp). change (Z.of_nat O) with 0.
    rewrite Z.add_0_l.
    by rewrite slice_head_min, slice_tail.
  - intros Hno Hq. unfold startsWith, startsWith_index.
    destruct (indexOf (toLowerCase label) (toLowerCase query)) as [i|] eqn:E.
    { apply indexOf_Some in E as (pre & post & E & _). by destruct (Hno pre post). }
    replace (-1 + Z.of_nat (String.length query))
      with (Z.of_nat (String.length query - 1)) by lia.
    by rewrite slice_head_min, slice_tail.
Qed.

(** The hypotheses of [startsWith_marks] hold of a query that the label
    starts with, whatever the case of the letters, and of a query that
    does not occur in the label. *)
Lemma startsWith_marks_witness :
  startsWith ascii_toLowerCase "aLa" "Alabama" = "<mark>Ala</mark>bama"
  ∧ startsWith ascii_toLowerCase "xyz" "Alabama" = "<mark>Al</mark>abama".
Proof.
  destruct (startsWith_marks ascii_toLowerCase "aLa" "Alabama") as (_ & H1 & _).
  destruct (startsWith_marks ascii_toLowerCase "xyz" "Alabama") as (_ & _ & H2).
  split.
  - rewrite H1; [reflexivity | vm_compute; reflexivity].
  - rewrite H2; [reflexivity | | simpl; lia].
    intros pre post H.
    assert (indexOf (ascii_toLowerCase "Alabama") (ascii_toLowerCase "xyz")
            = None) as Hn by (vm_compute; reflexivity).
    by apply (indexOf_None _ _ Hn pre post).
Defined.

(** ** [search.ajax] *)

(** The function made by [search.ajax] fulfils its promise only for a
    response that was not redirected, is [ok] and whose body is an array,
    and then with that array. A redirected response is always a failure,
    even when it is [ok] and carries an array: [You have been logged out.]
    when its URL ends with the login suffix, the server message
    otherwise. A response that is not [ok], and a body that is JSON but
    no array, give the server message. *)
Theorem ajax_classifies (loginUrlEndsWith : string) :
  (∀ r list,
     ajax loginUrlEndsWith r = Resolved list
     ↔ ∃ result, r = Fetched result ∧ redirected result = false
                 ∧ ok result = true ∧ json result = JsonArray list)
  ∧ (∀ result, redirected result = true →
       ((∃ pre, url result = pre +:+ loginUrlEndsWith) →
        ajax loginUrlEndsWith (Fetched result) = Rejected msg_logged_out)
       ∧ ((∀ pre, url result ≠ pre +:+ loginUrlEndsWith) →
          ajax loginUrlEndsWith (Fetched result) = Rejected msg_server))
  ∧ (∀ result, redirected result = false →
       ok result = false ∨ json result = JsonOther →
       ajax loginUrlEndsWith (Fetched result) = Rejected msg_server)
  ∧ (∀ message, ajax loginUrlEndsWith (FetchRejected message)
                = Rejected message).
Proof.
  split_and!.
  - intros r list. split.
    + destruct r as [m|result]; simpl; [done|].
      destruct (redirected result) eqn:Er; simpl.
      { destruct (endsWith _ _); done. }
      destruct (ok result) eqn:Eo; simpl; [|done].
      destruct (json result) eqn:Ej; try done.
      intros [= <-]. by exists result.
    + intros (result & -> & Hr & Ho & Hj). simpl. by rewrite Hr, Ho, Hj.
  - intros result Hr. split.
    + intros He. apply endsWith_spec in He. simpl. by rewrite Hr, He.
    + intros Hne. simpl. rewrite Hr. simpl.
      destruct (endsWith (url result) loginUrlEndsWith) eqn:E; [|done].
      apply endsWith_spec in E as [pre E]. by destruct (Hne pre).
  - intros result Hr H. simpl. rewrite Hr. simpl.
    destruct (ok result); simpl; [|done].
    destruct H as [H|H]; [done|]. by rewrite H.
  - done.
Qed.

(** The hypotheses of [ajax_classifies] hold of a response redirected to
    the login page and of one redirected elsewhere. *)
Lemma ajax_classifies_witness :
  ajax default_loginUrlEndsWith (Fetched login_redirect)
  = Rejected msg_logged_out
  ∧ ajax "/signin" (Fetched login_redirect) = Rejected msg_server.
Proof.
  destruct (ajax_classifies default_loginUrlEndsWith) as (_ & H1 & _).
  destruct (ajax_classifies "/signin") as (_ & H2 & _).
  split.
  - apply (H1 login_redirect eq_refl).
    exists "https://example.org/app". reflexivity.
  - apply (H2 login_redirect eq_refl).
    intros pre H.
    assert (endsWith (url login_redirect) "/signin" = true) as E.
    { apply endsWith_spec. by exists pre. }
    vm_compute in E. discriminate.
Defined.

(** ** Constructing and destroying *)

Lemma revertAttributes_id (a : option string) :
  a ≠ Some EmptyString → revertAttributes a = a.
Proof.
  destruct a as [s|]; simpl; [|done]. intros H.
  destruct (String.eqb s EmptyString) eqn:E; [|done].
  apply String.eqb_eq in E. by subst.
Qed.

Lemma reverted_id (nd : InputEl) :
  no_empty_attribute nd → wrapper nd = None → reverted nd = nd.
Proof.
  intros (H1 & H2 & H3) Hw. unfold reverted.
  rewrite !revertAttributes_id by done. rewrite <- Hw. by destruct nd.
Qed.

Lemma unbound_no_wrapper w n nd :
  wf w → initializedEls w !! n = None → nodes w !! n = Some nd →
  wrapper nd = None.
Proof.
  intros Hwf Hreg Hnd. pose proof (wf_wrapper w Hwf n) as H.
  unfold listener_of in H. by rewrite Hnd, Hreg in H.
Qed.

Lemma alter_bind_unbind (m : gmap NodeId InputEl) (n : NodeId) (nd : InputEl)
    a b this :
  m !! n = Some nd →
  alter (set_attrs a) n
    (alter (set_wrapper None) n
       (alter (set_attrs b) n (alter (set_wrapper this) n m)))
  = <[n := set_attrs a (set_wrapper None nd)]> m.
Proof.
  intros Hnd. apply map_eq. intros k. destruct (decide (n = k)) as [<-|Hne].
  - rewrite !lookup_alter_eq, lookup_insert_eq, Hnd. done.
  - rewrite !lookup_alter_ne, lookup_insert_ne by done. done.
Qed.

(** A widget constructed on an input that has none takes the input into
    its wrapper, registers itself, switches the document listener on,
    keeps the three attributes it overwrites and logs nothing; destroying
    it right away gives back the input elements, with each attribute as
    it was unless it was present and empty, the registry, the document
    listener, and leaves timers and trace alone. *)
Theorem construct_then_destroy (w : World) (el : ElArg) (options : Options)
    (n : NodeId) (nd : InputEl) :
  reachable w → resolve_el el w = Some n → initializedEls w !! n = None →
  nodes w !! n = Some nd →
  searchFn (assign defaultSettings options) = Function →
  ∃ w1 w2 s1 nd1,
    new_Suggest el options w = Some w1
    ∧ initializedEls w1 = <[n := fresh w]> (initializedEls w)
    ∧ documentListener w1 = true
    ∧ objs w1 !! fresh w = Some s1
    ∧ built s1 = true ∧ inputEl s1 = Some n ∧ children s1 = []
    ∧ originalAttributes s1
      = (attr_placeholder nd, attr_style nd, attr_autocomplete nd)
    ∧ nodes w1 !! n = Some nd1
    ∧ value nd1 = value nd ∧ wrapper nd1 = Some (fresh w)
    ∧ attr_placeholder nd1
      = Some (placeholder (assign defaultSettings options))
    ∧ attr_autocomplete nd1 = Some "off"
    ∧ trace w1 = trace w
    ∧ destroy (fresh w) w1 = Some w2
    ∧ nodes w2 = <[n := reverted nd]> (nodes w)
    ∧ (no_empty_attribute nd → nodes w2 = nodes w)
    ∧ initializedEls w2 = initializedEls w
    ∧ documentListener w2 = documentListener w
    ∧ timers w2 = timers w ∧ trace w2 = trace w.
Proof.
  intros Hr Hel Hreg Hnd Hfn. apply reachable_wf in Hr as Hwf.
  pose proof (unbound_no_wrapper w n nd Hwf Hreg Hnd) as Hwrap.
  unfold new_Suggest. cbv zeta. rewrite Hel.
  change (initializedEls (bump 1 w)) with (initializedEls w). rewrite Hreg.
  cbn [mbind option_bind]. rewrite Hfn. cbn [is_function negb].
  change (nodes (bump 1 w)) with (nodes w). rewrite Hnd.
  cbn [mbind option_bind].
  assert (documentListener w = true ↔ initializedEls w ≠ ∅) as Hl
    by apply Hwf.
  case_decide as Hsz; simpl in Hsz;
    (eexists _, _, _, _; split; [reflexivity|]).
  - apply map_size_empty_iff in Hsz as Hempty.
    assert (documentListener w = false) as Hlf.
    { destruct (documentListener w); [|done].
      by destruct (proj1 Hl eq_refl). }
    unfold destroy, get_built. simpl.
    rewrite lookup_insert_eq. simpl.
    rewrite !lookup_alter_eq, Hnd. simpl.
    rewrite delete_insert_eq, (delete_id _ _ Hreg).
    rewrite decide_True by done.
    split_and!; try reflexivity; try done.
    + simpl. by rewrite (alter_bind_unbind _ n nd).
    + intros Hne. simpl. rewrite (alter_bind_unbind _ n nd) by done.
      change (set_attrs _ (set_wrapper None nd)) with (reverted nd).
      rewrite reverted_id by done. by apply insert_id.
  - apply map_size_non_empty_iff in Hsz as Hne0.
    assert (documentListener w = true) as Hlt by by apply Hl.
    unfold destroy, get_built. simpl.
    rewrite lookup_insert_eq. simpl.
    rewrite !lookup_alter_eq, Hnd. simpl.
    rewrite delete_insert_eq, (delete_id _ _ Hreg).
    rewrite decide_False by done.
    split_and!; try reflexivity; try done.
    + simpl. by rewrite (alter_bind_unbind _ n nd).
    + intros Hne. simpl. rewrite (alter_bind_unbind _ n nd) by done.
      change (set_attrs _ (set_wrapper None nd)) with (reverted nd).
      rewrite reverted_id by done. by apply insert_id.
Qed.


(** The input of [styled_page] has a placeholder and a style of its own
    and no [autocomplete]: constructing a widget on it and destroying the
    widget gives the page its inputs back. *)
Lemma construct_then_destroy_witness :
  ∃ w1 w2,
    new_Suggest (ASelector "#q") (sample_options 1 Undefined) styled_page
    = Some w1
    ∧ destroy (fresh styled_page) w1 = Some w2
    ∧ nodes w2 = nodes styled_page.
Proof.
  opose proof* (construct_then_destroy styled_page (ASelector "#q")
                  (sample_options 1 Undefined) 7%nat styled_input)
    as (w1 & w2 & s1 & nd1 & H);
    [ | reflexivity | reflexivity | reflexivity | reflexivity | ].
  - apply reach_page. intros n nd. rewrite lookup_singleton_Some.
    by intros [_ <-].
  - destruct H as (A & _ & _ & _ & _ & _ & _ & _ & _ & _ & _ & _ & _ & _
                   & B & _ & C & _).
    exists w1, w2. split; [exact A|]. split; [exact B|].
    apply C. repeat split; discriminate.
Defined.

(** ** What [destroy()] changes *)

Lemma alter_lookup_insert {K A} `{Countable K} (f : A → A) (m : gmap K A)
    (k : K) (x : A) :
  m !! k = Some x → alter f k m = <[k := f x]> m.
Proof.
  intros Hk. apply map_eq. intros j. destruct (decide (k = j)) as [<-|Hne].
  - by rewrite lookup_alter_eq, lookup_insert_eq, Hk.
  - by rewrite lookup_alter_ne, lookup_insert_ne.
Qed.

Lemma destroy_Some o w w' :
  destroy o w = Some w' →
  ∃ s n nd,
    objs w !! o = Some s ∧ built s = true ∧ inputEl s = Some n
    ∧ nodes w !! n = Some nd
    ∧ nodes w'
      = <[n := set_attrs (revertAttributes (originalAttributes s).1.1,
                          revertAttributes (originalAttributes s).1.2,
                          revertAttributes (originalAttributes s).2)
                 (set_wrapper None nd)]> (nodes w)
    ∧ objs w' = <[o := spinner_destroy s]> (objs w)
    ∧ initializedEls w' = delete n (initializedEls w)
    ∧ trace w' = trace w ∧ timers w' = timers w
    ∧ inflight w' = inflight w ∧ clock w' = clock w
    ∧ next_id w' = next_id w ∧ selectors w' = selectors w.
Proof.
  unfold destroy. intros H.
  destruct (get_built o w) as [s|] eqn:Hg; simpl in H; [|discriminate].
  destruct (inputEl s) as [n|] eqn:Hi; simpl in H; [|discriminate].
  destruct (nodes w !! n) as [nd|] eqn:Hnd; simpl in H; [|discriminate].
  apply get_built_Some in Hg as [Ho Hb].
  exists s, n, nd.
  assert (alter (set_attrs (revertAttributes (originalAttributes s).1.1,
                            revertAttributes (originalAttributes s).1.2,
                            revertAttributes (originalAttributes s).2)) n
            (alter (set_wrapper None) n (nodes w))
          = <[n := set_attrs (revertAttributes (originalAttributes s).1.1,
                              revertAttributes (originalAttributes s).1.2,
                              revertAttributes (originalAttributes s).2)
                     (set_wrapper None nd)]> (nodes w)) as Hn.
  { apply map_eq. intros j. destruct (decide (n = j)) as [<-|Hne].
    - by rewrite !lookup_alter_eq, lookup_insert_eq, Hnd.
    - by rewrite !lookup_alter_ne, lookup_insert_ne. }
  pose proof (alter_lookup_insert spinner_destroy (objs w) o s Ho) as Hobj.
  case_decide; injection H as <-; simpl; by split_and!.
Qed.

(** ** A constructor without a search function *)

Lemma resolve_el_selectors el w w' :
  selectors w' = selectors w → resolve_el el w' = resolve_el el w.
Proof. intros H. destruct el; simpl; by rewrite ?H. Qed.

Lemma new_Suggest_unbound_no_searchFn w el options n :
  resolve_el el w = Some n → initializedEls w !! n = None →
  searchFn (assign defaultSettings options) = Undefined →
  new_Suggest el options w
  = Some (emit (ConsoleError msg_searchFn)
            (alloc (fresh w) (unbuilt (assign defaultSettings options) (Some n))
               (bump 1 w))).
Proof.
  intros Hel Hreg Hfn. unfold new_Suggest. cbv zeta. rewrite Hel.
  change (initializedEls (bump 1 w)) with (initializedEls w). rewrite Hreg.
  cbn [mbind option_bind]. rewrite Hfn. reflexivity.
Qed.

Lemma unbuilt_throws o w st n :
  objs w !! o = Some (unbuilt st n) →
  show o w = None ∧ hide o w = None ∧ clear o w = None ∧ destroy o w = None
  ∧ (∀ key, handleKeyEvent o key w = None).
Proof.
  intros Ho.
  assert (get_built o w = None) as Hg by (unfold get_built; by rewrite Ho).
  unfold show, hide, clear, destroy, handleKeyEvent. by rewrite Hg.
Qed.

(** When the options hold no function under [searchFn], the constructor
    logs the error and returns: the new object has its input and its
    settings and nothing else, and each of its methods throws. The input
    is in the registry no longer, whether it was before or not, so a
    widget that was bound to it is destroyed and none takes its place;
    the document listener follows the registry. The field keeps its
    value, the other inputs, the other objects and the timers are left
    alone. *)
Theorem constructor_without_searchFn (w : World) (el : ElArg)
    (options : Options) (n : NodeId) :
  reachable w → resolve_el el w = Some n →
  searchFn (assign defaultSettings options) = Undefined →
  ∃ w',
    new_Suggest el options w = Some w'
    ∧ objs w' !! fresh w
      = Some (unbuilt (assign defaultSettings options) (Some n))
    ∧ (show (fresh w) w' = None ∧ hide (fresh w) w' = None
       ∧ clear (fresh w) w' = None ∧ destroy (fresh w) w' = None
       ∧ ∀ key, handleKeyEvent (fresh w) key w' = None)
    ∧ initializedEls w' = delete n (initializedEls w)
    ∧ listener_of n w' = None
    ∧ (documentListener w' = true ↔ delete n (initializedEls w) ≠ ∅)
    ∧ trace w' = trace w ++ [ConsoleError msg_searchFn]
    ∧ timers w' = timers w
    ∧ (value <$> nodes w' !! n) = (value <$> nodes w !! n)
    ∧ (∀ m, m ≠ n → nodes w' !! m = nodes w !! m)
    ∧ (initializedEls w !! n = None → nodes w' = nodes w)
    ∧ (∀ o, initializedEls w !! n ≠ Some o → o ≠ fresh w →
            objs w' !! o = objs w !! o).
Proof.
  intros Hr Hel Hfn. apply reachable_wf in Hr as Hwf.
  assert (∃ w', new_Suggest el options w = Some w') as [w' Hnew].
  { destruct (initializedEls w !! n) as [prior|] eqn:Hreg.
    - destruct (new_Suggest_rebinds w el options n prior Hwf Hel Hreg)
        as (w1 & Hd & Hreg1 & _ & ->).
      destruct (destroy_Some _ _ _ Hd)
        as (_ & _ & _ & _ & _ & _ & _ & _ & _ & _ & _ & _ & _ & _ & _ & Hsel).
      rewrite (new_Suggest_unbound_no_searchFn w1 el options n); eauto.
      by rewrite (resolve_el_selectors _ _ _ Hsel).
    - rewrite (new_Suggest_unbound_no_searchFn w el options n); eauto. }
  pose proof (wf_new_Suggest _ _ _ _ Hwf Hnew) as Hwf'.
  exists w'. split; [done|].
  assert (objs w' !! fresh w
          = Some (unbuilt (assign defaultSettings options) (Some n))
          ∧ initializedEls w' = delete n (initializedEls w)
          ∧ trace w' = trace w ++ [ConsoleError msg_searchFn]
          ∧ timers w' = timers w
          ∧ (value <$> nodes w' !! n) = (value <$> nodes w !! n)
          ∧ (∀ m, m ≠ n → nodes w' !! m = nodes w !! m)
          ∧ (initializedEls w !! n = None → nodes w' = nodes w)
          ∧ (∀ o, initializedEls w !! n ≠ Some o → o ≠ fresh w →
                  objs w' !! o = objs w !! o))
    as (Hobj & Hregs & Htr & Htm & Hval & Hoth & Hsame & Hobjs).
  { destruct (initializedEls w !! n) as [prior|] eqn:Hreg.
    - destruct (new_Suggest_rebinds w el options n prior Hwf Hel Hreg)
        as (w1 & Hd & Hreg1 & _ & Heq).
      destruct (destroy_Some _ _ _ Hd)
        as (s & n' & nd & Ho & _ & Hi & Hnd & Hn1 & Ho1 & Hr1 & Ht1 & Htm1
            & _ & _ & Hnx & Hsel).
      destruct (wf_registry w Hwf n prior Hreg) as (s0 & Hs0 & _ & Hi0).
      assert (n' = n) as -> by congruence.
      rewrite Heq, (new_Suggest_unbound_no_searchFn w1 el options n) in Hnew;
        [| by rewrite (resolve_el_selectors _ _ _ Hsel) | done | done ].
      injection Hnew as <-. simpl.
      assert (fresh w1 = fresh w) as -> by (unfold fresh; by rewrite Hnx).
      rewrite lookup_insert_eq, Hr1, Ht1, Htm1, Hn1, Ho1.
      split_and!; try done.
      + by rewrite lookup_insert_eq, Hnd.
      + intros m Hm. by rewrite lookup_insert_ne.
      + intros o Hne1 Hne2. rewrite !lookup_insert_ne; [done| |done].
        intros <-. done.
    - rewrite (new_Suggest_unbound_no_searchFn w el options n) in Hnew by done.
      injection Hnew as <-. simpl. rewrite lookup_insert_eq.
      split_and!; try done.
      + by rewrite delete_id.
      + intros o _ Hne. by rewrite lookup_insert_ne. }
  split; [done|].
  split; [by apply (unbuilt_throws _ _ _ _ Hobj)|].
  split; [done|].
  split; [rewrite (wf_wrapper w' Hwf'), Hregs; apply lookup_delete_eq|].
  split; [rewrite <- Hregs; apply Hwf'|].
  by split_and!.
Qed.

(** The hypotheses of [constructor_without_searchFn] hold of
    [three_items] when the constructor is called on its input without
    options: the widget that was there is gone and the registry is
    empty. *)
Lemma constructor_without_searchFn_witness :
  ∃ w', new_Suggest (ASelector "#q") no_options three_items = Some w'
        ∧ initializedEls w' = delete 7%nat (initializedEls three_items)
        ∧ listener_of 7%nat w' = None.
Proof.
  opose proof* (constructor_without_searchFn three_items (ASelector "#q")
                  no_options 7%nat) as (w' & H1 & _ & _ & H2 & H3 & _);
    [ apply reachable_run, sample_page_reachable
    | reflexivity | reflexivity | ].
  exists w'. exact (conj H1 (conj H2 H3)).
Defined.

(** ** A destroyed widget hears nothing *)

(** Destroying the widget bound to an input takes the wrapper and the
    list element off the page, and with them their listeners: typing
    into the input only changes its value, a key pressed in it does
    nothing, and the list cannot be clicked. Other inputs keep their
    listeners. *)
Theorem destroy_detaches (w : World) (n : NodeId) (o : ObjId) :
  reachable w → initializedEls w !! n = Some o →
  ∃ w',
    destroy o w = Some w'
    ∧ initializedEls w' !! n = None
    ∧ listener_of n w' = None
    ∧ (∀ v, step (EInput n v) w' = upd_node n (set_value v) w')
    ∧ (∀ key, step (EKeyDown n key) w' = w')
    ∧ (∀ t, step (EClickList o t) w' = w')
    ∧ (∀ m, m ≠ n → listener_of m w' = listener_of m w).
Proof.
  intros Hr Hreg. apply reachable_wf in Hr as Hwf.
  destruct (wf_registry w Hwf n o Hreg) as (s & Ho & Hb & Hi).
  destruct (wf_built w Hwf o s Ho Hb) as (n' & Hi' & [nd Hnd]).
  assert (n' = n) as -> by congruence.
  assert (∃ w', destroy o w = Some w') as [w' Hd].
  { unfold destroy. rewrite (proj2 (get_built_Some o w s)) by done.
    simpl. rewrite Hi. simpl. rewrite Hnd. simpl. eauto. }
  destruct (destroy_Some _ _ _ Hd)
    as (s1 & n1 & nd1 & Ho1 & _ & Hi1 & Hnd1 & Hn & Hobj & Hregs & _).
  assert (s1 = s) as -> by congruence.
  assert (n1 = n) as -> by congruence.
  assert (listener_of n w' = None) as Hl.
  { unfold listener_of. by rewrite Hn, lookup_insert_eq. }
  exists w'. split_and!; try done.
  - rewrite Hregs. apply lookup_delete_eq.
  - intros v. simpl. unfold on_wrapper.
    assert (listener_of n (upd_node n (set_value v) w') = None) as ->; [|done].
    unfold listener_of. simpl. rewrite lookup_alter_eq, Hn, lookup_insert_eq.
    done.
  - intros key. simpl. unfold on_wrapper. by rewrite Hl.
  - intros t. simpl. unfold list_click, get_built.
    rewrite Hobj, lookup_insert_eq. simpl. rewrite Hb. simpl. rewrite Hi.
    simpl. rewrite Hl. rewrite bool_decide_eq_false_2 by done. done.
  - intros m Hm. unfold listener_of. by rewrite Hn, lookup_insert_ne.
Qed.

(** The hypotheses of [destroy_detaches] hold of [three_items]. *)
Lemma destroy_detaches_witness :
  ∃ w', destroy 1%nat three_items = Some w'
        ∧ step (EInput 7%nat "abc") w' = upd_node 7%nat (set_value "abc") w'
        ∧ step (EKeyDown 7%nat "ArrowDown") w' = w'.
Proof.
  opose proof* (destroy_detaches three_items 7%nat 1%nat)
    as (w' & H1 & _ & _ & H2 & H3 & _);
    [ apply reachable_run, sample_page_reachable
    | vm_compute; reflexivity | ].
  exists w'. split; [exact H1|]. split; [apply H2 | apply H3].
Defined.

(** ** Keys while the list is closed *)

(** While the list is closed no key commits anything: the event is not
    stopped, no callback is called, the field and the children of the
    list are left as they are. An arrow key opens the list when it has a
    child; every other key, Enter and Tab among them, changes
    nothing. *)
Theorem keys_on_closed_list (w : World) (o : ObjId) (s : Suggest)
    (key : string) :
  objs w !! o = Some s → built s = true → listEl_show s = false →
  ∃ w' s',
    handleKeyEvent o key w = Some w'
    ∧ objs w' !! o = Some s'
    ∧ children s' = children s
    ∧ (listEl_show s' = true
       ↔ (key = "ArrowDown" ∨ key = "ArrowUp") ∧ children s ≠ [])
    ∧ (key ≠ "ArrowDown" → key ≠ "ArrowUp" → w' = w)
    ∧ nodes w' = nodes w ∧ trace w' = trace w ∧ timers w' = timers w
    ∧ (∀ o', o' ≠ o → objs w' !! o' = objs w !! o').
Proof.
  intros Ho Hb Hs.
  assert (Hg : get_built o w = Some s) by by apply get_built_Some.
  unfold handleKeyEvent. rewrite Hg. cbn [mbind option_bind]. rewrite Hs.
  cbn [negb].
  destruct (String.eqb key "ArrowDown") eqn:Ed;
    [|destruct (String.eqb key "ArrowUp") eqn:Eu]; cbn [orb].
  1,2: unfold show; rewrite Hg; cbn [mbind option_bind];
       exists (upd_obj o show_list w), (show_list s);
       (split; [done|]); (split; [rewrite objs_upd_obj, decide_True by done; by rewrite Ho|]);
       (split; [unfold show_list; by destruct (children s) eqn:E|]).
  - apply String.eqb_eq in Ed. split_and!; try done.
    + unfold show_list. split.
      * destruct (children s); simpl; [congruence|]. intros _. split; eauto.
      * intros [_ Hne]. by destruct (children s).
    + intros o' Hne. rewrite objs_upd_obj, decide_False by done. done.
  - apply String.eqb_eq in Eu. split_and!; try done.
    + unfold show_list. split.
      * destruct (children s); simpl; [congruence|]. intros _. split; eauto.
      * intros [_ Hne]. by destruct (children s).
    + intros o' Hne. rewrite objs_upd_obj, decide_False by done. done.
  - apply String.eqb_neq in Ed, Eu. exists w, s. split_and!; try done.
    rewrite Hs. split; [done|]. by intros [[?|?] _].
Qed.

(** The hypotheses of [keys_on_closed_list] hold of [fresh_widget], whose
    list is closed and empty: Tab changes nothing. *)
Lemma keys_on_closed_list_witness :
  handleKeyEvent 1%nat "Tab" fresh_widget = Some fresh_widget.
Proof.
  opose proof* (keys_on_closed_list fresh_widget 1%nat _ "Tab")
    as (w' & s' & H1 & _ & _ & _ & H2 & _);
    [ vm_compute; reflexivity | reflexivity | reflexivity | ].
  rewrite H1. f_equal. apply H2; discriminate.
Defined.

(** ** The error element can be committed *)

(** The element that [showError] puts in the list is a child like any
    other, and it has no [suggestItem]. While it is the only child of an
    open list, Tab, and Enter without an [enterFn], commit it: the field
    is set to the label of [undefined], the list is closed, the error
    element is made active and [selectFn] is called with [undefined] and
    the error element. A click on it does the same. *)
Theorem error_element_is_committed (w : World) (o : ObjId) (s : Suggest)
    (n : NodeId) (nd : InputEl) (e : Elem) (message key : string) :
  objs w !! o = Some s → built s = true → inputEl s = Some n →
  nodes w !! n = Some nd → listEl_show s = true →
  children s = [e] → el_kind e = ErrorDiv message →
  suggestItem e = JUndefined →
  key = "Tab" ∨ (key = "Enter" ∧ enterFn (settings s) = Undefined) →
  let committed (before : list Effect) (w' : World) :=
    trace w' = trace w ++ before ++ [CallSelect o JUndefined (el_id e)]
    ∧ nodes w'
      = <[n := set_value (labelFn (settings s) JUndefined) nd]> (nodes w)
    ∧ objs w'
      = <[o := hide_list
                 (set_children
                    [set_active true (set_hover false (set_active false e))]
                    s)]> (objs w) in
  (∃ w', handleKeyEvent o key w = Some w'
         ∧ committed [PreventDefault; StopPropagation] w')
  ∧ (listener_of n w = Some o →
     ∃ w', list_click o (TChild 0) w = Some w'
           ∧ committed [StopPropagation] w').
Proof.
  intros Ho Hb Hi Hnd Hs Hc Hk Hitem Hkey committed.
  assert (Hg : get_built o w = Some s) by by apply get_built_Some.
  assert (match currentEl s with
          | Some i => TChild i
          | None => match child firstElementChild (length (children s)) with
                    | Some j => TChild j
                    | None => TNull
                    end
          end = TChild 0) as Ht.
  { unfold currentEl, querySelector. rewrite Hc. simpl.
    repeat case_decide; simpl; done. }
  assert (∀ before w0,
            get_built o w0 = Some s → nodes w0 = nodes w →
            objs w0 = objs w → trace w0 = trace w ++ before →
            ∃ w', select o (TChild 0) w0 = Some w' ∧ committed before w')
    as Hsel.
  { intros before w0 Hg0 Hn0 Ho0 Ht0. unfold select. rewrite Hg0.
    cbn [mbind option_bind]. rewrite Hi. cbn [mbind option_bind].
    rewrite Hc. simpl. eexists. split; [reflexivity|].
    unfold committed. simpl. rewrite Hitem, Hn0, Ho0, Ht0, <- app_assoc.
    split_and!; [done | by apply alter_lookup_insert |].
    rewrite (alter_lookup_insert _ _ _ _ Ho). by rewrite Hc. }
  split.
  - assert (handleKeyEvent o key w
            = select o (TChild 0)
                (emit StopPropagation (emit PreventDefault w))) as ->.
    { unfold handleKeyEvent, findSelectedEl. rewrite Hg.
      cbn [mbind option_bind]. rewrite Hs. cbn [negb]. rewrite Ht.
      destruct Hkey as [->|[-> ->]]; reflexivity. }
    apply Hsel; try done. simpl. by rewrite <- app_assoc.
  - intros Hl. unfold list_click. rewrite Hg. cbn [mbind option_bind].
    rewrite Hi. cbn [mbind option_bind].
    rewrite bool_decide_eq_true_2 by done.
    by apply Hsel.
Qed.

(** The hypotheses of [error_element_is_committed] hold of [error_shown]:
    after the failed search Tab writes [undefined] into the field. *)
Lemma error_element_is_committed_witness :
  ∃ w' nd',
    handleKeyEvent 1%nat "Tab" error_shown = Some w'
    ∧ nodes w' !! 7%nat = Some nd' ∧ value nd' = "undefined"
    ∧ trace w'
      = trace error_shown
        ++ [PreventDefault; StopPropagation; CallSelect 1%nat JUndefined 5%nat].
Proof.
  opose proof* (error_element_is_committed error_shown 1%nat _ 7%nat _
                  (errorEl 5%nat msg_server) msg_server "Tab")
    as [(w' & H1 & H2 & H3 & _) _];
    [ vm_compute; reflexivity | reflexivity | reflexivity
    | vm_compute; reflexivity | reflexivity | reflexivity | reflexivity
    | reflexivity | by left | ].
  exists w'. eexists. split; [exact H1|]. rewrite H3, lookup_insert_eq.
  split; [reflexivity|]. split; [reflexivity | exact H2].
Defined.

(** ** The pointer entering an item *)






(** ** Clicks that reach the document *)

Lemma dismiss_idemp s : dismiss (dismiss s) = dismiss s.
Proof.
  unfold dismiss, hide_list, set_listEl_show, set_children. simpl. f_equal.
  rewrite <- list_fmap_compose. by apply list_fmap_ext.
Qed.

Lemma set_objs_frame (x : gmap ObjId Suggest) (w1 w : World) :
  w1 = set_objs (objs w1) w → set_objs x w1 = set_objs x w.
Proof. intros ->. reflexivity. Qed.

(** The loop of [#documentOnClick] over any list of objects: only objects
    change, and an object of the list the click missed is dismissed. *)
Lemma documentOnClick_loop t (l : list ObjId) w :
  let body := λ o w,
    match objs w !! o with
    | Some s =>
        if contains_target s t then w
        else upd_obj o
               (λ s, hide_list
                       (set_children (set_hover false <$> children s) s)) w
    | None => w
    end in
  let w' := foldr body w l in
  w' = set_objs (objs w') w
  ∧ ∀ o, objs w' !! o
         = if decide (o ∈ l)
           then (λ s, if contains_target s t then s else dismiss s)
                  <$> objs w !! o
           else objs w !! o.
Proof.
  intros body. induction l as [|o' l IH]; cbn [foldr]; cbv zeta.
  { split; [by destruct w|]. intros o. rewrite decide_False; [done|].
    apply not_elem_of_nil. }
  cbv zeta in IH. destruct IH as [IH1 IH2].
  set (w1 := foldr body w l) in *.
  assert (∀ o, objs (body o' w1) !! o
               = if decide (o = o')
                 then (λ s, if contains_target s t then s else dismiss s)
                        <$> objs w1 !! o
                 else objs w1 !! o) as Hb.
  { intros o. unfold body.
    destruct (objs w1 !! o') as [s|] eqn:E.
    - destruct (contains_target s t) eqn:Ec.
      + case_decide as Ho; [|done]. subst o. rewrite E. simpl. by rewrite Ec.
      + rewrite objs_upd_obj. case_decide as Ho.
        * subst o'. rewrite decide_True by done. rewrite E. simpl. by rewrite Ec.
        * by rewrite decide_False.
    - case_decide as Ho; [|done]. subst o. by rewrite E. }
  split.
  - unfold body. destruct (objs w1 !! o') as [s|]; [|done].
    destruct (contains_target s t); [done|].
    unfold upd_obj. simpl. by apply set_objs_frame.
  - intros o. rewrite Hb, IH2.
    destruct (decide (o = o')) as [->|Hne].
    + rewrite (decide_True (P := o' ∈ o' :: l)) by (apply elem_of_cons; by left).
      case_decide; [|done].
      destruct (objs w !! o') as [s|]; simpl; [|done]. f_equal.
      destruct (contains_target s t) eqn:Ec; [by rewrite Ec|].
      assert (contains_target (dismiss s) t = false) as -> by exact Ec.
      apply dismiss_idemp.
    + destruct (decide (o ∈ l)) as [Hin|Hin].
      * rewrite decide_True; [done|]. apply elem_of_cons. by right.
      * rewrite decide_False; [done|]. rewrite elem_of_cons. tauto.
Qed.

Lemma registered_values (w : World) (o : ObjId) :
  o ∈ (snd <$> map_to_list (initializedEls w))
  ↔ ∃ n, initializedEls w !! n = Some o.
Proof.
  rewrite list_elem_of_fmap. split.
  - intros ([n o'] & -> & Hin). exists n. by apply elem_of_map_to_list.
  - intros [n Hn]. exists (n, o). split; [done|].
    by apply elem_of_map_to_list.
Qed.

Lemma documentOnClick_spec t w :
  let w' := documentOnClick t w in
  w' = set_objs (objs w') w
  ∧ (∀ n o, initializedEls w !! n = Some o →
       objs w' !! o
       = (λ s, if contains_target s t then s else dismiss s) <$> objs w !! o)
  ∧ (∀ o, (∀ n, initializedEls w !! n ≠ Some o) →
          objs w' !! o = objs w !! o).
Proof.
  destruct (documentOnClick_loop t (snd <$> map_to_list (initializedEls w)) w)
    as [H1 H2].
  split; [exact H1|]. split.
  - intros n o Hn. unfold documentOnClick. rewrite H2.
    rewrite decide_True; [done|]. apply registered_values. eauto.
  - intros o Hno. unfold documentOnClick. rewrite H2.
    rewrite decide_False; [done|]. rewrite registered_values.
    intros [n Hn]. by apply (Hno n).
Qed.

(** A click outside every input and every list changes nothing but the
    lists of the widgets that are bound to an input: each is closed and
    loses its highlight, and keeps its children and its active child.
    Objects that are bound to no input, inputs, registry, timers and
    trace are left alone. *)
Theorem click_elsewhere_dismisses (w : World) :
  reachable w →
  let w' := step EClickElsewhere w in
  w' = set_objs (objs w') w
  ∧ (∀ n o, initializedEls w !! n = Some o →
       ∃ s s', objs w !! o = Some s ∧ objs w' !! o = Some s'
               ∧ s' = dismiss s
               ∧ listEl_show s' = false
               ∧ none_with hover (children s')
               ∧ (active <$> children s') = (active <$> children s)
               ∧ (el_id <$> children s') = (el_id <$> children s))
  ∧ (∀ o, (∀ n, initializedEls w !! n ≠ Some o) →
          objs w' !! o = objs w !! o).
Proof.
  intros Hr. apply reachable_wf in Hr as Hwf. simpl. unfold on_document.
  destruct (documentListener w) eqn:Hl.
  - destruct (documentOnClick_spec Elsewhere w) as (H1 & H2 & H3).
    split; [exact H1|]. split.
    + intros n o Hreg.
      destruct (wf_registry w Hwf n o Hreg) as (s & Ho & _).
      exists s, (dismiss s). rewrite (H2 n o Hreg).
      rewrite Ho. split_and!; try done.
      * intros j c. simpl. rewrite list_lookup_fmap.
        destruct (children s !! j); simpl; [|discriminate]. by intros [= <-].
      * simpl. rewrite <- list_fmap_compose. by apply list_fmap_ext.
      * simpl. rewrite <- list_fmap_compose. by apply list_fmap_ext.
    + exact H3.
  - assert (initializedEls w = ∅) as Hempty.
    { destruct (decide (initializedEls w = ∅)) as [|Hne]; [done|].
      apply (wf_listener w Hwf) in Hne. congruence. }
    split; [by destruct w|]. split; [|done].
    intros n o. rewrite Hempty, lookup_empty. discriminate.
Qed.

(** The hypothesis of [click_elsewhere_dismisses] holds of [two_widgets],
    where two lists are open: a click elsewhere closes both. *)
Lemma click_elsewhere_dismisses_witness :
  ∃ s1 s2,
    objs (step EClickElsewhere two_widgets) !! 1%nat = Some s1
    ∧ objs (step EClickElsewhere two_widgets) !! 2%nat = Some s2
    ∧ listEl_show s1 = false ∧ listEl_show s2 = false.
Proof.
  opose proof* (click_elsewhere_dismisses two_widgets) as (_ & H & _).
  { apply reachable_run, reach_page. intros n nd Hn.
    apply lookup_insert_Some in Hn as [[_ <-]|[_ Hn]]; [done|].
    apply lookup_singleton_Some in Hn as [_ <-]. done. }
  destruct (H 7%nat 1%nat) as (? & s1 & _ & A1 & _ & B1 & _);
    [vm_compute; reflexivity|].
  destruct (H 8%nat 2%nat) as (? & s2 & _ & A2 & _ & B2 & _);
    [vm_compute; reflexivity|].
  exists s1, s2. exact (conj A1 (conj A2 (conj B1 B2))).
Defined.

(** A click into a bound input opens the list of its widget when the
    field is not empty and the list has a child, and closes it
    otherwise; the children of that list, highlight included, stay. The
    same click reaches the document, where it dismisses every other bound
    widget. Nothing but objects changes. *)
Theorem click_on_input (w : World) (n : NodeId) (o : ObjId) (s : Suggest)
    (nd : InputEl) :
  reachable w → initializedEls w !! n = Some o → objs w !! o = Some s →
  nodes w !! n = Some nd →
  let w' := step (EClickInput n) w in
  w' = set_objs (objs w') w
  ∧ (∃ s', objs w' !! o = Some s'
           ∧ children s' = children s
           ∧ (listEl_show s' = true
              ↔ value nd ≠ EmptyString ∧ children s ≠ []))
  ∧ (∀ m o2, m ≠ n → initializedEls w !! m = Some o2 →
       ∃ s2, objs w !! o2 = Some s2 ∧ objs w' !! o2 = Some (dismiss s2))
  ∧ (∀ o2, (∀ m, initializedEls w !! m ≠ Some o2) →
           objs w' !! o2 = objs w !! o2).
Proof.
  intros Hr Hreg Ho Hnd. apply reachable_wf in Hr as Hwf.
  destruct (wf_registry w Hwf n o Hreg) as (s0 & Hs0 & Hb & Hi).
  assert (s0 = s) as -> by congruence.
  assert (Hg : get_built o w = Some s) by by apply get_built_Some.
  destruct (wf_objs w Hwf o s Ho) as (_ & _ & Hshow).
  assert (documentListener w = true) as Hl.
  { apply (wf_listener w Hwf). intros E. by rewrite E, lookup_empty in Hreg. }
  set (f := if negb (String.eqb (value nd) EmptyString)
            then show_list else hide_list).
  assert (on_wrapper n (wrapper_click n) w = upd_obj o f w) as Hw.
  { unfold on_wrapper. rewrite (wf_wrapper w Hwf n), Hreg. simpl.
    unfold wrapper_click. rewrite Hnd. simpl. unfold f, show, hide.
    destruct (negb _); by rewrite Hg. }
  assert (children (f s) = children s ∧ inputEl (f s) = inputEl s
          ∧ (listEl_show (f s) = true
             ↔ value nd ≠ EmptyString ∧ children s ≠ [])) as (Hc & Hfi & Hfs).
  { unfold f. destruct (String.eqb (value nd) EmptyString) eqn:E; simpl.
    - apply String.eqb_eq in E. split_and!; [done..|].
      split; [discriminate | by intros [? _]].
    - apply String.eqb_neq in E. unfold show_list.
      destruct (children s) eqn:Ec; simpl.
      + split_and!; [done..|]. split; [|by intros [_ ?]].
        intros Hs. by destruct (Hshow Hs).
      + split_and!; [done..|]. split; [intros _|done]. by split. }
  simpl. unfold on_document. rewrite Hw.
  change (documentListener (upd_obj o f w)) with (documentListener w).
  rewrite Hl.
  destruct (documentOnClick_spec (OnInput n) (upd_obj o f w)) as (H1 & H2 & H3).
  change (initializedEls (upd_obj o f w)) with (initializedEls w) in H2, H3.
  split.
  { rewrite H1 at 1. done. }
  split.
  { exists (f s). rewrite (H2 n o Hreg).
    rewrite objs_upd_obj, decide_True by done. rewrite Ho. simpl.
    unfold contains_target. rewrite Hfi, Hi.
    rewrite bool_decide_eq_true_2 by done. done. }
  split.
  - intros m o2 Hm Hreg2.
    destruct (wf_registry w Hwf m o2 Hreg2) as (s2 & Ho2 & _ & Hi2).
    assert (o2 ≠ o) as Hne by (intros ->; congruence).
    exists s2. split; [done|]. rewrite (H2 m o2 Hreg2).
    rewrite objs_upd_obj, decide_False by done. rewrite Ho2. simpl.
    unfold contains_target. rewrite Hi2.
    rewrite bool_decide_eq_false_2 by done. done.
  - intros o2 Hno. rewrite (H3 o2 Hno).
    rewrite objs_upd_obj, decide_False; [done|].
    intros <-. by apply (Hno n).
Qed.

(** The hypotheses of [click_on_input] hold of [two_widgets] for the
    first input: its list stays open, the list of the second input is
    dismissed. *)
Lemma click_on_input_witness :
  ∃ s1 s2,
    objs (step (EClickInput 7%nat) two_widgets) !! 1%nat = Some s1
    ∧ listEl_show s1 = true
    ∧ objs two_widgets !! 2%nat = Some s2
    ∧ objs (step (EClickInput 7%nat) two_widgets) !! 2%nat
      = Some (dismiss s2).
Proof.
  opose proof* (click_on_input two_widgets 7%nat 1%nat _ _)
    as (_ & (s1 & A & _ & B) & C & _);
    [ | vm_compute; reflexivity | vm_compute; reflexivity
    | vm_compute; reflexivity | ].
  { apply reachable_run, reach_page. intros n nd Hn.
    apply lookup_insert_Some in Hn as [[_ <-]|[_ Hn]]; [done|].
    apply lookup_singleton_Some in Hn as [_ <-]. done. }
  destruct (C 8%nat 2%nat) as (s2 & D & E);
    [discriminate | vm_compute; reflexivity |].
  exists s1, s2. split; [exact A|].
  split; [apply B; split; vm_compute; discriminate|].
  exact (conj D E).
Defined.

(** ** What an event can add to the trace *)

Lemma search_ok_kept w w' e :
  kept w w' → search_ok (objs w) e → search_ok (objs w') e.
Proof.
  intros Hk. destruct e; simpl; try done.
  intros (s & Hs & Hb & Hq & Hm).
  destruct (Hk _ _ Hs) as (s' & Hs' & Hst & _ & Hb').
  exists s'. rewrite Hst, Hb'. done.
Qed.

Lemma ext_refl w : extends w w.
Proof.
  split; [intros o s Hs; eauto|]. exists []. by rewrite app_nil_r.
Qed.

Lemma ext_trans w1 w2 w3 : extends w1 w2 → extends w2 w3 → extends w1 w3.
Proof.
  intros [K1 (n1 & T1 & F1)] [K2 (n2 & T2 & F2)]. split.
  - intros o s Hs. destruct (K1 _ _ Hs) as (s' & Hs' & A & B & C).
    destruct (K2 _ _ Hs') as (s'' & Hs'' & A' & B' & C').
    exists s''. split_and!; [done|congruence..].
  - exists (n1 ++ n2). split; [by rewrite T2, T1, app_assoc|].
    apply Forall_app. split; [|done].
    eapply Forall_impl; [exact F1|]. intros e. by apply search_ok_kept.
Qed.

Lemma ext_same w w' : objs w' = objs w → trace w' = trace w → extends w w'.
Proof.
  intros Ho Ht. split.
  - intros o s Hs. rewrite Ho. eauto.
  - exists []. by rewrite app_nil_r.
Qed.

Lemma ext_emit e w : search_ok (objs w) e → extends w (emit e w).
Proof.
  intros He. split; [intros o s Hs; eauto|].
  exists [e]. split; [done|]. by apply Forall_singleton.
Qed.

Lemma ext_upd_obj o f w : fixes f → extends w (upd_obj o f w).
Proof.
  intros Hf. split.
  - intros o' s Hs. rewrite objs_upd_obj. case_decide as E.
    + subst o'. rewrite Hs. simpl. destruct (Hf s) as (A & B & C). eauto.
    + eauto.
  - exists []. by rewrite app_nil_r.
Qed.

Lemma ext_alloc o s w : objs w !! o = None → extends w (alloc o s w).
Proof.
  intros Hnew. split.
  - intros o' s' Hs'. simpl. rewrite lookup_insert_ne by congruence. eauto.
  - exists []. by rewrite app_nil_r.
Qed.

Lemma fixes_show_list : fixes show_list.
Proof. intros s. unfold show_list. by destruct (children s). Qed.

Ltac fixes_tac :=
  first [ exact fixes_show_list
        | intros ?; unfold show_list; simpl;
          repeat match goal with
                 | |- context [match ?l with [] => _ | _ :: _ => _ end] =>
                     destruct l
                 end; done ].

Ltac ext_tac :=
  repeat first
    [ apply ext_refl
    | match goal with
      | |- extends ?w (emit ?e ?x) =>
          apply (ext_trans w x); [|apply ext_emit; exact I]
      | |- extends ?w (upd_obj ?o ?f ?x) =>
          apply (ext_trans w x); [|apply ext_upd_obj; fixes_tac]
      | |- extends ?w (upd_node ?n ?g ?x) =>
          apply (ext_trans w x); [|by apply ext_same]
      | |- extends ?w (bump ?k ?x) =>
          apply (ext_trans w x); [|by apply ext_same]
      | |- extends ?w (set_timers ?l ?x) =>
          apply (ext_trans w x); [|by apply ext_same]
      | |- extends ?w (set_inflight ?l ?x) =>
          apply (ext_trans w x); [|by apply ext_same]
      | |- extends ?w (set_clock ?l ?x) =>
          apply (ext_trans w x); [|by apply ext_same]
      | |- extends ?w (set_initializedEls ?l ?x) =>
          apply (ext_trans w x); [|by apply ext_same]
      | |- extends ?w (set_documentListener ?l ?x) =>
          apply (ext_trans w x); [|by apply ext_same]
      | |- extends ?w (add_inflight ?p ?x) =>
          apply (ext_trans w x); [|by apply ext_same]
      | |- extends ?w (setTimeout ?o ?d ?x) =>
          apply (ext_trans w x); [|by apply ext_same]
      | |- extends ?w (clearTimeout ?i ?x) =>
          apply (ext_trans w x); [|by apply ext_same]
      end ].

Ltac ext_open H :=
  repeat match type of H with
         | (?x ≫= _) = Some _ =>
             let E := fresh "E" in
             destruct x eqn:E; simpl in H; [|discriminate]
         end.

Lemma ext_show o w w' : show o w = Some w' → extends w w'.
Proof. unfold show. intros H. ext_open H. simplify_eq. ext_tac. Qed.

Lemma ext_hide o w w' : hide o w = Some w' → extends w w'.
Proof. unfold hide. intros H. ext_open H. simplify_eq. ext_tac. Qed.

Lemma ext_clear o w w' : clear o w = Some w' → extends w w'.
Proof. unfold clear. intros H. ext_open H. simplify_eq. ext_tac. Qed.

Lemma ext_updateList o list w w' : updateList o list w = Some w' → extends w w'.
Proof.
  unfold updateList. intros H. ext_open H. simplify_eq.
  destruct (imap _ _); ext_tac.
Qed.

Lemma ext_showError o message w w' :
  showError o message w = Some w' → extends w w'.
Proof. unfold showError. intros H. ext_open H. simplify_eq. ext_tac. Qed.

Lemma ext_refresh o w w' : refresh o w = Some w' → extends w w'.
Proof.
  unfold refresh. intros H.
  destruct (objs w !! o) as [s|] eqn:Ho; simpl in H; [|discriminate].
  destruct (inputEl s) as [n|] eqn:Hi; simpl in H; [|discriminate].
  destruct (nodes w !! n) as [nd|] eqn:Hnd; simpl in H; [|discriminate].
  destruct (String.eqb (value nd) EmptyString) eqn:Ee.
  { destruct (clear o w) as [w1|] eqn:Hc; simpl in H; [|discriminate].
    injection H as <-. eapply ext_trans; [by eapply ext_clear|]. ext_tac. }
  destruct (_ <? _) eqn:El.
  { injection H as <-. apply ext_refl. }
  destruct (get_built o w) as [s0|] eqn:Hg; simpl in H; [|discriminate].
  apply get_built_Some in Hg as [Hs0 Hb].
  assert (s0 = s) as -> by congruence.
  injection H as <-.
  apply (ext_trans _ (upd_obj o spinner_show (bump 1 w))); [ext_tac|].
  apply (ext_trans _ (emit (CallSearch o (value nd) (fresh w))
                        (upd_obj o spinner_show (bump 1 w))));
    [|by apply ext_same].
  apply ext_emit. simpl. exists (spinner_show s).
  rewrite lookup_alter_eq, Ho. split_and!; try done.
  - by apply String.eqb_neq.
  - apply Z.ltb_ge in El. exact El.
Qed.

Lemma ext_refresh_resume p r w w' :
  refresh_resume p r w = Some w' → extends w w'.
Proof.
  unfold refresh_resume. intros H.
  destruct (find_pending p (inflight w)) as [pd|]; simpl in H; [|discriminate].
  destruct (objs w !! pend_owner pd) as [s|]; simpl in H; [|discriminate].
  destruct (inputEl s) as [n|]; simpl in H; [|discriminate].
  destruct (nodes w !! n) as [nd|]; simpl in H; [|discriminate].
  destruct r as [list|message].
  - destruct (negb _).
    + injection H as <-. ext_tac.
    + destruct (updateList _ _ _) as [w2|] eqn:E; simpl in H; [|discriminate].
      injection H as <-.
      apply (ext_trans _ w2); [|ext_tac].
      eapply ext_trans; [|by eapply ext_updateList]. ext_tac.
  - destruct (showError _ _ _) as [w2|] eqn:E; simpl in H; [|discriminate].
    injection H as <-.
    apply (ext_trans _ w2); [|ext_tac].
    eapply ext_trans; [|by eapply ext_showError]. ext_tac.
Qed.

Lemma ext_debounceRefresh o w w' :
  debounceRefresh o w = Some w' → extends w w'.
Proof.
  unfold debounceRefresh. intros H. ext_open H. simplify_eq.
  destruct (truthy _); ext_tac.
Qed.

Lemma ext_fire tm w : extends w (fire tm w).
Proof.
  unfold fire, timer_callback.
  destruct (refresh _ _) as [w1|] eqn:E; simpl.
  - eapply ext_trans; [|by eapply ext_refresh]. ext_tac.
  - ext_tac.
Qed.

Lemma ext_advance_fuel fuel t w : extends w (advance_fuel fuel t w).
Proof.
  revert w. induction fuel as [|k IH]; intros w; simpl; [apply ext_refl|].
  destruct (earliest _) as [tm|]; [|apply ext_refl].
  eapply ext_trans; [|apply IH].
  eapply ext_trans; [|apply ext_fire]. ext_tac.
Qed.

Lemma ext_advance t w : extends w (advance t w).
Proof.
  unfold advance. eapply ext_trans; [apply ext_advance_fuel|]. ext_tac.
Qed.

Lemma ext_moveHover o cp lp w w' :
  moveHover o cp lp w = Some w' → extends w w'.
Proof.
  unfold moveHover. intros H. ext_open H. simplify_eq. ext_tac.
Qed.

Lemma ext_select o t w w' : select o t w = Some w' → extends w w'.
Proof.
  unfold select. intros H. destruct t; simplify_eq; [apply ext_refl..|].
  ext_open H. simplify_eq. ext_tac.
Qed.

Lemma ext_findSelectedEl o key w w' :
  findSelectedEl o key w = Some w' → extends w w'.
Proof.
  unfold findSelectedEl. intros H.
  destruct (get_built o w) as [s|]; simpl in H; [|discriminate].
  destruct (_ && _).
  - injection H as <-. ext_tac.
  - eapply ext_trans; [|by eapply ext_select]. ext_tac.
Qed.

Lemma ext_handleKeyEvent o key w w' :
  handleKeyEvent o key w = Some w' → extends w w'.
Proof.
  unfold handleKeyEvent. intros H.
  destruct (get_built o w) as [s|]; simpl in H; [|discriminate].
  destruct (negb _).
  { destruct (_ || _); [by eapply ext_show|]. injection H as <-.
    apply ext_refl. }
  destruct (String.eqb key "ArrowDown"); [by eapply ext_moveHover|].
  destruct (String.eqb key "ArrowUp"); [by eapply ext_moveHover|].
  destruct (_ || _); [by eapply ext_findSelectedEl|].
  injection H as <-. apply ext_refl.
Qed.

Lemma ext_destroy o w w' : destroy o w = Some w' → extends w w'.
Proof.
  unfold destroy. intros H. ext_open H. simplify_eq.
  case_decide; ext_tac.
Qed.

Lemma ext_new_Suggest el options w w' :
  wf w → new_Suggest el options w = Some w' → extends w w'.
Proof.
  unfold new_Suggest. intros Hwf H.
  pose proof (wf_fresh_object w Hwf) as Hnew.
  destruct (resolve_el el w) as [n|].
  2:{ injection H as <-.
      apply (ext_trans _ (alloc (fresh w) (unbuilt defaultSettings None)
                            (bump 1 w))); [|ext_tac].
      apply (ext_trans _ (bump 1 w)); [ext_tac | by apply ext_alloc]. }
  match type of H with
  | (?x ≫= _) = _ => destruct x as [w1|] eqn:E1; simpl in H; [|discriminate]
  end.
  assert (extends w w1 ∧ objs w1 !! fresh w = None) as [Hext Hnew1].
  { destruct (initializedEls (bump 1 w) !! n) as [prior|].
    - destruct (destroy_frame _ _ _ E1) as (_ & _ & B & _). split.
      + eapply ext_trans; [|by eapply ext_destroy]. ext_tac.
      + by apply B.
    - injection E1 as <-. split; [ext_tac | done]. }
  apply (ext_trans _ w1); [done|].
  destruct (negb _).
  { injection H as <-.
    eapply ext_trans; [by apply (ext_alloc (fresh w))|]. ext_tac. }
  destruct (nodes w1 !! n) as [nd|]; simpl in H; [|discriminate].
  injection H as <-.
  match goal with
  | |- extends w1 (set_initializedEls _ (if ?c then _ else _)) =>
      destruct c
  end.
  - do 4 (eapply ext_trans; [|by apply ext_same]).
    by apply ext_alloc.
  - do 3 (eapply ext_trans; [|by apply ext_same]).
    by apply ext_alloc.
Qed.

Lemma ext_documentOnClick t w : extends w (documentOnClick t w).
Proof.
  unfold documentOnClick.
  induction (snd <$> map_to_list (initializedEls w)) as [|o l IH];
    [apply ext_refl|].
  simpl. destruct (objs _ !! o) as [s|]; [|done].
  destruct (contains_target s t); [done|].
  eapply ext_trans; [exact IH|]. ext_tac.
Qed.

Lemma ext_attempt r w : (∀ w', r = Some w' → extends w w') →
  extends w (attempt r w).
Proof. intros H. destruct r; simpl; [by apply H | apply ext_refl]. Qed.

Lemma ext_on_wrapper n f w :
  (∀ o w', f o w = Some w' → extends w w') → extends w (on_wrapper n f w).
Proof.
  intros H. unfold on_wrapper. destruct (listener_of n w); [|apply ext_refl].
  apply ext_attempt. eauto.
Qed.

Lemma ext_on_document t w : extends w (on_document t w).
Proof.
  unfold on_document. destruct (documentListener w); [|apply ext_refl].
  apply ext_documentOnClick.
Qed.

Lemma ext_step e w : wf w → extends w (step e w).
Proof.
  intros Hwf. destruct e; simpl.
  - apply ext_attempt; eauto using ext_new_Suggest.
  - apply ext_attempt; eauto using ext_destroy.
  - apply ext_attempt; eauto using ext_show.
  - apply ext_attempt; eauto using ext_hide.
  - apply ext_attempt; eauto using ext_clear.
  - apply ext_attempt; eauto using ext_refresh.
  - eapply ext_trans; [|apply ext_on_wrapper; eauto using ext_debounceRefresh].
    ext_tac.
  - apply ext_on_wrapper; eauto using ext_handleKeyEvent.
  - eapply ext_trans; [|apply ext_on_document].
    apply ext_on_wrapper. intros o w'. unfold wrapper_click. intros H.
    destruct (nodes w !! n); simpl in H; [|discriminate].
    destruct (negb _); [by eapply ext_show | by eapply ext_hide].
  - apply ext_attempt. intros w'. unfold list_click. intros H.
    destruct (get_built o w); simpl in H; [|discriminate].
    destruct (inputEl _); simpl in H; [|discriminate].
    case_bool_decide; [|discriminate].
    eapply ext_trans; [|by eapply ext_select]. ext_tac.
  - apply ext_on_document.
  - apply ext_attempt; eauto using ext_refresh_resume.
Qed.

(** Whatever happens on the page, and however much time passes, the
    trace only grows and every object stays, with the settings it was
    constructed with, the input it was constructed for, and built or not
    as the constructor left it. *)
Theorem events_only_append (w : World) :
  reachable w →
  ∀ w', (∃ e, w' = step e w) ∨ (∃ t, w' = advance t w) →
    (∃ new, trace w' = trace w ++ new)
    ∧ ∀ o s, objs w !! o = Some s →
        ∃ s', objs w' !! o = Some s' ∧ settings s' = settings s
              ∧ inputEl s' = inputEl s ∧ built s' = built s.
Proof.
  intros Hr w' Hw'. apply reachable_wf in Hr as Hwf.
  assert (extends w w') as [Hk (new & Ht & _)].
  { destruct Hw' as [[e ->]|[t ->]]; [by apply ext_step | apply ext_advance]. }
  split; [eauto | exact Hk].
Qed.

(** The hypothesis of [events_only_append] holds of [three_items]: Tab
    adds to its trace. *)
Lemma events_only_append_witness :
  ∃ new, trace (step (EKeyDown 7%nat "Tab") three_items)
         = trace three_items ++ new.
Proof.
  apply (events_only_append three_items).
  - apply reachable_run, sample_page_reachable.
  - left. eexists. reflexivity.
Defined.

Lemma reachable_searches_ok w :
  reachable w → Forall (search_ok (objs w)) (trace w).
Proof.
  induction 1 as [inputs sels H|e w Hr IH|t w Hr IH].
  - apply Forall_nil_2.
  - destruct (ext_step e w (reachable_wf w Hr)) as [Hk (new & -> & Hnew)].
    apply Forall_app. split; [|done].
    eapply Forall_impl; [exact IH|]. intros x. by apply search_ok_kept.
  - destruct (ext_advance t w) as [Hk (new & -> & Hnew)].
    apply Forall_app. split; [|done].
    eapply Forall_impl; [exact IH|]. intros x. by apply search_ok_kept.
Qed.

(** [searchFn] is never called with an empty query, nor with a query
    shorter than [minLength], nor by an object whose constructor returned
    early: every call of [searchFn] in the trace of a reachable world was
    made by a built object with a query that is not empty and has at
    least [minLength] characters, whichever way [refresh] was reached, by
    the debounce timer or by the consumer's script. *)
Theorem searches_are_long_enough (w : World) (o : ObjId) (query : string)
    (p : PromiseId) :
  reachable w → CallSearch o query p ∈ trace w →
  ∃ s, objs w !! o = Some s ∧ built s = true ∧ query ≠ EmptyString
       ∧ minLength (settings s) ≤ Z.of_nat (String.length query).
Proof.
  intros Hr Hin. pose proof (reachable_searches_ok w Hr) as Hall.
  rewrite Forall_forall in Hall. exact (Hall _ Hin).
Qed.

(** The hypotheses of [searches_are_long_enough] hold of [typed_ahead],
    whose trace has the search for [ab]. *)
Lemma searches_are_long_enough_witness :
  ∃ s, objs typed_ahead !! 1%nat = Some s
       ∧ minLength (settings s) ≤ 2.
Proof.
  opose proof* (searches_are_long_enough typed_ahead 1%nat "ab" 3%nat)
    as (s & H1 & _ & _ & H2).
  - apply reachable_run, sample_page_reachable.
  - vm_compute. apply elem_of_cons. by left.
  - exists s. exact (conj H1 H2).
Defined.

(** ** Marks and timers in every reachable world *)



(** In every reachable world the armed timers have distinct ids, none of
    them falsy, and each belongs to an object that exists; an object has
    at most one armed timer, and it has one exactly when [#timeoutId]
    holds an id, which is then the id of that timer. *)
Theorem one_timer_per_widget (w : World) :
  reachable w →
  NoDup (timer_id <$> timers w)
  ∧ Forall (λ t, truthy (Some (timer_id t)) = true
                 ∧ is_Some (objs w !! timer_owner t)) (timers w)
  ∧ (∀ o, (length (own_timers o w) ≤ 1)%nat)
  ∧ (∀ o s, objs w !! o = Some s →
            timer_id <$> own_timers o w = option_list (timeoutId s)).
Proof.
  intros Hr. apply reachable_wf in Hr as Hwf.
  destruct Hwf as [_ Hids Hnd Hown Hto _ _ _ _ _].
  split_and!; try done.
  - rewrite Forall_forall in Hids, Hown. apply Forall_forall.
    intros t Ht. split; [|by apply Hown].
    specialize (Hids t Ht). simpl in Hids.
    destruct (timer_id t); [lia | done].
  - intros o. destruct (objs w !! o) as [s|] eqn:Ho.
    + rewrite <- (length_fmap timer_id), (Hto o s Ho).
      destruct (timeoutId s); simpl; lia.
    + assert (own_timers o w = []) as ->; [|simpl; lia].
      unfold own_timers. clear Hids Hnd.
      induction Hown as [|t l [s Hs] _ IH]; [done|].
      rewrite filter_cons_False; [exact IH|]. congruence.
Qed.

(** The hypothesis of [one_timer_per_widget] holds of [typed_ahead],
    where the widget has one armed timer. *)
Lemma one_timer_per_widget_witness :
  NoDup (timer_id <$> timers typed_ahead)
  ∧ (length (own_timers 1%nat typed_ahead) ≤ 1)%nat.
Proof.
  opose proof* (one_timer_per_widget typed_ahead) as (H1 & _ & H2 & _).
  - apply reachable_run, sample_page_reachable.
  - exact (conj H1 (H2 _)).
Defined.
